(** * CodeCollabHub: the tutorial notebooks' snippets, embedded and verified

    The repository is a set of Python teaching notebooks.  Each module below
    embeds the snippets of one notebook: Python integers are [Z], a [dict] is a
    [gmap], a generator is the state machine of its frame (one state per
    suspension point), and code that raises returns an explicit outcome. *)

From stdpp Require Import gmap strings list.
From Stdlib Require Import ZArith Lia.

(** ** Exceptions and outcomes shared by the notebooks *)

Inductive exn :=
| ValueError (msg : string)
| TypeError (msg : string)
| UnboundLocalError (msg : string)
| KeyError (msg : string).

Inductive outcome (A : Type) :=
| Ret (a : A)
| Raise (e : exn).
Arguments Ret {A} a.
Arguments Raise {A} e.

(** * Iterators_and_Generators.ipynb *)
Module Iterators.
Local Open Scope Z_scope.

(** What one call of [__next__] gives: a value, or the [StopIteration]
    signal. *)
Inductive next_result (A : Type) :=
| Yielded (a : A)
| StopIteration.
Arguments Yielded {A} a.
Arguments StopIteration {A}.

(** The iterator protocol: [next(it)] returns a result and the iterator in
    its new state ([__iter__] returns the iterator itself). *)
Class Iterator (St A : Type) := next : St → next_result A * St.

Section Protocol.
Context {St A : Type} `{!Iterator St A}.

(** [for x in it: ...], collecting the values bound to [x]: the loop calls
    [next] until [StopIteration].  [None] only when the fuel runs out. *)
Fixpoint for_loop (fuel : nat) (it : St) : option (list A * St) :=
  match fuel with
  | O => None
  | S fuel' =>
      match next it with
      | (Yielded x, it') =>
          match for_loop fuel' it' with
          | Some (xs, it'') => Some (x :: xs, it'')
          | None => None
          end
      | (StopIteration, it') => Some ([], it')
      end
  end.

(** The iterator after [n] calls of [next]. *)
Fixpoint advance (n : nat) (it : St) : St :=
  match n with
  | O => it
  | S n' => advance n' (next it).2
  end.

(** The results of [n] successive calls of [next]. *)
Fixpoint next_results (n : nat) (it : St) : list (next_result A) :=
  match n with
  | O => []
  | S n' => let '(r, it') := next it in r :: next_results n' it'
  end.

End Protocol.

(** ** class Countdown *)

Record Countdown := { current : Z }.

Definition Countdown__init__ (start : Z) : Countdown := {| current := start |}.

Definition Countdown__next__ (self : Countdown) : next_result Z * Countdown :=
  if current self >? 0 then
    let self' := {| current := current self - 1 |} in
    (Yielded (current self' + 1), self')
  else (StopIteration, self).

#[export] Instance Countdown_iterator : Iterator Countdown Z := Countdown__next__.

(** The values [n, n-1, ..., 1]. *)
Definition down_from (n : Z) : list Z := reverse (seqZ 1 n).

(** ** def countdown_generator(start) *)

(** The generator's frame: not started yet (holding the argument), suspended
    at the [yield] (holding [current]), or returned. *)
Inductive countdown_frame :=
| CountdownCreated (start : Z)
| CountdownSuspended (current : Z)
| CountdownReturned.

Definition countdown_generator (start : Z) : countdown_frame := CountdownCreated start.

(** The head of [while current > 0: yield current]. *)
Definition countdown_while (current : Z) : next_result Z * countdown_frame :=
  if current >? 0 then (Yielded current, CountdownSuspended current)
  else (StopIteration, CountdownReturned).

Definition countdown_generator_next (g : countdown_frame) : next_result Z * countdown_frame :=
  match g with
  | CountdownCreated start => countdown_while start
  | CountdownSuspended current => countdown_while (current - 1)
  | CountdownReturned => (StopIteration, CountdownReturned)
  end.

#[export] Instance countdown_generator_iterator : Iterator countdown_frame Z :=
  countdown_generator_next.

(** ** def fibonacci_generator() *)

Inductive fibonacci_frame :=
| FibonacciCreated
| FibonacciSuspended (a b : Z).

Definition fibonacci_generator : fibonacci_frame := FibonacciCreated.

Definition fibonacci_generator_next (g : fibonacci_frame) : next_result Z * fibonacci_frame :=
  match g with
  | FibonacciCreated => (Yielded 0, FibonacciSuspended 0 1)
  | FibonacciSuspended a b =>
      let '(a, b) := (b, a + b) in
      (Yielded a, FibonacciSuspended a b)
  end.

#[export] Instance fibonacci_generator_iterator : Iterator fibonacci_frame Z :=
  fibonacci_generator_next.

(** The Fibonacci sequence by its recurrence: F0 = 0, F1 = 1,
    F(n+2) = F(n+1) + F(n). *)
Fixpoint Fib (n : nat) : Z :=
  match n with
  | O => 0
  | S m => match m with
           | O => 1
           | S k => Fib m + Fib k
           end
  end.

(** ** def accumulator() *)

Inductive accumulator_frame :=
| AccumulatorCreated
| AccumulatorSuspended (total : Z).

Definition accumulator : accumulator_frame := AccumulatorCreated.

(** [acc.send(value)]; [next(acc)] is [acc.send(None)].  A generator that has
    not started accepts only [None]. *)
Definition accumulator_send (value : option Z) (g : accumulator_frame)
  : outcome Z * accumulator_frame :=
  match g with
  | AccumulatorCreated =>
      match value with
      | None => (Ret 0, AccumulatorSuspended 0)
      | Some _ =>
          (Raise (TypeError "can't send non-None value to a just-started generator"),
           AccumulatorCreated)
      end
  | AccumulatorSuspended total =>
      let total := match value with
                   | Some v => total + v
                   | None => total
                   end in
      (Ret total, AccumulatorSuspended total)
  end.

Definition accumulator_next : accumulator_frame → outcome Z * accumulator_frame :=
  accumulator_send None.

(** The usage lines of the cell, with the three sent values as parameters:
    [acc = accumulator(); next(acc)] and then the three printed sends. *)
Definition accumulator_usage (v1 v2 v3 : Z) : list (outcome Z) :=
  let acc := accumulator in
  let '(_, acc) := accumulator_next acc in
  let '(o1, acc) := accumulator_send (Some v1) acc in
  let '(o2, acc) := accumulator_send (Some v2) acc in
  let '(o3, acc) := accumulator_send (Some v3) acc in
  [o1; o2; o3].

(** *** Countdown *)

Lemma Countdown__next__pos (c : Z) :
  0 < c →
  Countdown__next__ {| current := c |} = (Yielded c, {| current := c - 1 |}).
Proof.
  intros Hc. unfold Countdown__next__. simpl.
  destruct (Z.gtb_spec c 0) as [_|Hle]; [|lia].
  do 2 f_equal. lia.
Qed.

Lemma Countdown__next__stop (c : Z) :
  c ≤ 0 →
  Countdown__next__ {| current := c |} = (StopIteration, {| current := c |}).
Proof.
  intros Hc. unfold Countdown__next__. simpl.
  destruct (Z.gtb_spec c 0) as [Hgt|_]; [lia|done].
Qed.

Lemma down_from_pos (n : Z) : 0 < n → down_from n = n :: down_from (n - 1).
Proof.
  intros Hn. unfold down_from.
  replace n with ((n - 1) + 1) at 1 by lia.
  rewrite seqZ_app by lia. rewrite reverse_app.
  replace (1 + (n - 1)) with n by lia. reflexivity.
Qed.

Lemma for_loop_Countdown (n : nat) :
  ∀ fuel, (n < fuel)%nat →
    for_loop fuel {| current := Z.of_nat n |}
    = Some (down_from (Z.of_nat n), {| current := 0 |}).
Proof.
  induction n as [|n IH]; intros [|fuel] Hfuel; try lia.
  - reflexivity.
  - cbn [for_loop]. unfold next, Countdown_iterator.
    rewrite Countdown__next__pos by lia.
    replace (Z.of_nat (S n) - 1) with (Z.of_nat n) by lia.
    rewrite IH by lia.
    rewrite (down_from_pos (Z.of_nat (S n))) by lia.
    replace (Z.of_nat (S n) - 1) with (Z.of_nat n) by lia. reflexivity.
Qed.

Lemma for_loop_countdown_suspended (n : nat) :
  ∀ fuel, (n < fuel)%nat →
    for_loop fuel (CountdownSuspended (Z.of_nat n + 1))
    = Some (down_from (Z.of_nat n), CountdownReturned).
Proof.
  induction n as [|n IH]; intros [|fuel] Hfuel; try lia.
  - reflexivity.
  - cbn [for_loop]. unfold next, countdown_generator_iterator.
    cbn [countdown_generator_next]. unfold countdown_while.
    replace (Z.of_nat (S n) + 1 - 1) with (Z.of_nat n + 1) by lia.
    destruct (Z.gtb_spec (Z.of_nat n + 1) 0) as [_|Hle]; [|lia].
    rewrite IH by lia.
    rewrite (down_from_pos (Z.of_nat (S n))) by lia.
    do 3 f_equal; [lia|]. f_equal. lia.
Qed.

Lemma advance_Countdown_nonneg (n : nat) :
  ∀ self : Countdown, 0 ≤ current self → 0 ≤ current (advance n self).
Proof.
  induction n as [|n IH]; intros [c] Hc; [done|].
  cbn [advance]. apply IH. unfold next, Countdown_iterator.
  destruct (decide (0 < c)) as [Hpos|Hnpos].
  - rewrite Countdown__next__pos by done. simpl in *. lia.
  - rewrite Countdown__next__stop by lia. done.
Qed.

(** C1.  For every integer [start >= 1], the [for] loop over
    [Countdown(start)] terminates (any fuel above [start] is enough) having
    produced exactly [start, start-1, ..., 1], leaving the counter at 0; on
    every state the object reaches, [__next__] raises [StopIteration] exactly
    when the counter is 0; and the loop over [countdown_generator(start)]
    produces the same values. *)
Theorem Countdown_yields_start_down_to_1 (start : Z) :
  1 ≤ start →
  (∀ fuel, (Z.to_nat start < fuel)%nat →
     for_loop fuel (Countdown__init__ start)
     = Some (down_from start, {| current := 0 |}))
  ∧ (∀ n, let self := advance n (Countdown__init__ start) in
          (Countdown__next__ self).1 = StopIteration ↔ current self = 0)
  ∧ (∀ fuel, (Z.to_nat start < fuel)%nat →
       for_loop fuel (countdown_generator start)
       = Some (down_from start, CountdownReturned)).
Proof.
  intros Hstart. split; [|split].
  - intros fuel Hfuel. unfold Countdown__init__.
    rewrite <- (Z2Nat.id start) by lia. apply for_loop_Countdown. lia.
  - intros n self.
    assert (0 ≤ current self) as Hnn.
    { apply advance_Countdown_nonneg. simpl. lia. }
    destruct self as [c]. simpl in *. split.
    + intros Hstop. destruct (decide (0 < c)) as [Hpos|Hnpos]; [|lia].
      rewrite Countdown__next__pos in Hstop by done. discriminate.
    + intros ->. reflexivity.
  - intros [|fuel] Hfuel; [lia|].
    assert (∃ n : nat, start = Z.of_nat n + 1 ∧ (n < fuel)%nat) as (n & -> & Hn).
    { exists (Z.to_nat start - 1)%nat. lia. }
    cbn [for_loop]. unfold next, countdown_generator_iterator, countdown_generator.
    cbn [countdown_generator_next]. unfold countdown_while.
    destruct (Z.gtb_spec (Z.of_nat n + 1) 0) as [_|Hle]; [|lia].
    rewrite for_loop_countdown_suspended by done.
    rewrite (down_from_pos (Z.of_nat n + 1)) by lia.
    replace (Z.of_nat n + 1 - 1) with (Z.of_nat n) by lia. reflexivity.
Qed.

Lemma Countdown_yields_start_down_to_1_witness :
  for_loop 6 (Countdown__init__ 5) = Some ([5; 4; 3; 2; 1], {| current := 0 |})
  ∧ for_loop 6 (countdown_generator 5) = Some ([5; 4; 3; 2; 1], CountdownReturned).
Proof.
  destruct (Countdown_yields_start_down_to_1 5 ltac:(lia)) as (Hobj & _ & Hgen).
  split.
  - exact (Hobj 6%nat ltac:(simpl; lia)).
  - exact (Hgen 6%nat ltac:(simpl; lia)).
Defined.

(** *** fibonacci_generator *)

Lemma Fib_step (n : nat) : Fib (S (S n)) = Fib (S n) + Fib n.
Proof. reflexivity. Qed.

Lemma next_results_fibonacci_suspended (k : nat) :
  ∀ i : nat,
    next_results k (FibonacciSuspended (Fib i) (Fib (S i)))
    = (λ j, Yielded (Fib j)) <$> seq (S i) k.
Proof.
  induction k as [|k IH]; intros i; [done|].
  cbn [next_results seq fmap list_fmap].
  unfold next, fibonacci_generator_iterator. cbn [fibonacci_generator_next].
  replace (Fib i + Fib (S i)) with (Fib (S (S i))) by (rewrite Fib_step; lia).
  rewrite IH. reflexivity.
Qed.

(** C5.  For every [k], the first [k] calls of [next] on
    [fibonacci_generator()] all yield, and the values are [F 0 .. F (k-1)] of
    the Fibonacci recurrence; the first ten are 0, 1, 1, 2, 3, 5, 8, 13, 21,
    34. *)
Theorem fibonacci_generator_prefix :
  (∀ k : nat,
     next_results k fibonacci_generator = (λ j, Yielded (Fib j)) <$> seq 0 k)
  ∧ next_results 10 fibonacci_generator
    = Yielded <$> [0; 1; 1; 2; 3; 5; 8; 13; 21; 34].
Proof.
  assert (∀ k : nat,
     next_results k fibonacci_generator = (λ j, Yielded (Fib j)) <$> seq 0 k) as Hk.
  { intros [|k]; [done|].
    cbn [next_results seq fmap list_fmap].
    unfold next, fibonacci_generator_iterator, fibonacci_generator.
    cbn [fibonacci_generator_next].
    change (FibonacciSuspended 0 1) with (FibonacciSuspended (Fib 0) (Fib 1)).
    rewrite next_results_fibonacci_suspended. reflexivity. }
  split; [exact Hk|]. rewrite Hk. reflexivity.
Qed.

(** *** accumulator *)

Lemma accumulator_send_suspended (total v : Z) :
  accumulator_send (Some v) (AccumulatorSuspended total)
  = (Ret (total + v), AccumulatorSuspended (total + v)).
Proof. reflexivity. Qed.

(** C6 (the code against its usage comments).  After priming with
    [next(acc)], each [send] returns the total with the sent value already
    added: sending [v1], [v2], [v3] returns [v1], [v1+v2], [v1+v2+v3].  For
    the cell's 10, 20, 30 that is 10, 30, 60 (the cell's recorded output), not
    the 0, 10, 30 of its comments. *)
Theorem accumulator_send_returns_updated_total :
  (∀ v1 v2 v3 : Z,
     accumulator_usage v1 v2 v3 = [Ret v1; Ret (v1 + v2); Ret (v1 + v2 + v3)])
  ∧ accumulator_usage 10 20 30 = [Ret 10; Ret 30; Ret 60]
  ∧ accumulator_usage 10 20 30 ≠ [Ret 0; Ret 10; Ret 30].
Proof.
  assert (∀ v1 v2 v3 : Z,
     accumulator_usage v1 v2 v3 = [Ret v1; Ret (v1 + v2); Ret (v1 + v2 + v3)]) as Hall.
  { intros v1 v2 v3. unfold accumulator_usage, accumulator_next, accumulator.
    cbn [accumulator_send]. rewrite Z.add_0_l. reflexivity. }
  split; [exact Hall|]. rewrite Hall. split; [reflexivity|discriminate].
Qed.

(** ** More of the notebook's iterators *)

(** *** Countdown and countdown_generator on every start *)

(** The object and the generator frame that stand at the same point of the
    countdown. *)
Inductive countdown_sim : Countdown → countdown_frame → Prop :=
| sim_created (c : Z) : countdown_sim {| current := c |} (CountdownCreated c)
| sim_suspended (c : Z) : countdown_sim {| current := c - 1 |} (CountdownSuspended c)
| sim_returned (c : Z) : c ≤ 0 → countdown_sim {| current := c |} CountdownReturned.

Lemma countdown_sim_next (self : Countdown) (g : countdown_frame) :
  countdown_sim self g →
  (next self).1 = (next g).1 ∧ countdown_sim (next self).2 (next g).2.
Proof.
  assert (∀ c, (Countdown__next__ {| current := c |}).1 = (countdown_while c).1
               ∧ countdown_sim (Countdown__next__ {| current := c |}).2
                               (countdown_while c).2) as Hwhile.
  { intros c. unfold countdown_while.
    destruct (Z.gtb_spec c 0) as [Hpos|Hle].
    - rewrite Countdown__next__pos by lia. split; [done|]. apply sim_suspended.
    - rewrite Countdown__next__stop by lia. split; [done|]. by apply sim_returned. }
  unfold next, Countdown_iterator, countdown_generator_iterator.
  intros [c|c|c Hc]; cbn [countdown_generator_next]; try apply Hwhile.
  rewrite Countdown__next__stop by done. split; [done|]. by apply sim_returned.
Qed.

(** X1.  The generator function is equivalent to the class for every integer
    start, positive or not, and for any number of calls, also past
    exhaustion: [n] calls of [next] on [Countdown(start)] and on
    [countdown_generator(start)] give the same results. *)
Theorem countdown_generator_equivalent (start : Z) (n : nat) :
  next_results n (Countdown__init__ start) = next_results n (countdown_generator start).
Proof.
  assert (∀ self g, countdown_sim self g → next_results n self = next_results n g) as Hsim.
  { induction n as [|n IH]; intros self g Hsg; [done|].
    cbn [next_results].
    destruct (countdown_sim_next self g Hsg) as [Hres Hnext].
    destruct (next self) as [r self'], (next g) as [r' g'].
    cbn [fst snd] in *. subst r'. f_equal. by apply IH. }
  apply Hsim, sim_created.
Qed.

Lemma for_loop_Countdown_exhausted (c : Z) (fuel : nat) :
  c ≤ 0 → (0 < fuel)%nat →
  for_loop fuel {| current := c |} = Some ([], {| current := c |}).
Proof.
  intros Hc Hfuel. destruct fuel as [|fuel]; [lia|].
  cbn [for_loop]. unfold next, Countdown_iterator.
  by rewrite Countdown__next__stop.
Qed.

(** X2.  A [Countdown] is a one-shot iterator, whatever its start: the [for]
    loop over it ends (any fuel above [start] is enough) with the values
    [start, ..., 1] (none when [start <= 0]), and every later loop over the
    same object ends at once with no value and leaves it as it is. *)
Theorem Countdown_is_one_shot (start : Z) (fuel : nat) :
  (Z.to_nat start < fuel)%nat →
  ∃ self',
    for_loop fuel (Countdown__init__ start) = Some (down_from start, self')
    ∧ current self' = Z.min start 0
    ∧ ∀ fuel', (0 < fuel')%nat → for_loop fuel' self' = Some ([], self').
Proof.
  intros Hfuel. unfold Countdown__init__.
  destruct (decide (0 < start)) as [Hpos|Hnpos].
  - exists {| current := 0 |}. split; [|split].
    + rewrite <- (Z2Nat.id start) by lia. apply for_loop_Countdown. lia.
    + simpl. lia.
    + intros fuel' Hfuel'. by apply for_loop_Countdown_exhausted.
  - exists {| current := start |}. split; [|split].
    + rewrite for_loop_Countdown_exhausted by lia.
      unfold down_from. by rewrite seqZ_nil by lia.
    + simpl. lia.
    + intros fuel' Hfuel'. apply for_loop_Countdown_exhausted; [lia|done].
Qed.

Lemma Countdown_is_one_shot_witness :
  ∃ self',
    for_loop 4 (Countdown__init__ 3) = Some ([3; 2; 1], self')
    ∧ current self' = 0
    ∧ ∀ fuel', (0 < fuel')%nat → for_loop fuel' self' = Some ([], self').
Proof. exact (Countdown_is_one_shot 3 4 ltac:(simpl; lia)). Defined.

(** *** fibonacci_generator never ends *)

(** X3.  [fibonacci_generator()] never raises [StopIteration]: from any of
    its frames a [for] loop over it does not end, whatever fuel it is
    given. *)
Theorem fibonacci_generator_is_infinite (fuel : nat) (g : fibonacci_frame) :
  for_loop fuel g = None.
Proof.
  revert g. induction fuel as [|fuel IH]; intros g; [done|].
  cbn [for_loop]. unfold next, fibonacci_generator_iterator.
  destruct g as [|a b]; cbn [fibonacci_generator_next]; by rewrite IH.
Qed.

(** *** accumulator on any sequence of sends *)

(** [acc.send(v)] for each [v] in turn ([None] stands for [next(acc)]). *)
Fixpoint send_all (values : list (option Z)) (g : accumulator_frame)
  : list (outcome Z) * accumulator_frame :=
  match values with
  | [] => ([], g)
  | v :: rest =>
      let '(o, g) := accumulator_send v g in
      let '(os, g) := send_all rest g in
      (o :: os, g)
  end.

Definition sum_sent (values : list (option Z)) : Z :=
  foldr (λ v acc, default 0 v + acc) 0 values.

Lemma sum_sent_snoc (values : list (option Z)) (v : option Z) :
  sum_sent (values ++ [v]) = sum_sent values + default 0 v.
Proof. induction values as [|w values IH]; simpl; [lia|]. rewrite IH. lia. Qed.

Lemma send_all_suspended (values : list (option Z)) :
  ∀ total : Z,
    send_all values (AccumulatorSuspended total)
    = ((λ i, Ret (total + sum_sent (take (S i) values))) <$> seq 0 (length values),
       AccumulatorSuspended (total + sum_sent values)).
Proof.
  induction values as [|v values IH]; intros total.
  - simpl. by rewrite Z.add_0_r.
  - cbn [send_all accumulator_send]. rewrite IH.
    cbn [length seq fmap list_fmap]. f_equal.
    + f_equal; [destruct v; simpl; f_equal; lia|].
      rewrite <- fmap_S_seq, <- list_fmap_compose.
      apply list_fmap_ext. intros _ i _. simpl. f_equal. destruct v; simpl; lia.
    + f_equal. destruct v; simpl; lia.
Qed.

(** X4.  After priming with [next(acc)], on any sequence of sends (a [None]
    being a plain [next]) the i-th call returns the sum of the first i
    values sent, the one just sent included, and the generator is left
    holding the sum of them all; it never stops. *)
Theorem accumulator_returns_running_totals (values : list (option Z)) :
  let '(primed, acc) := accumulator_next accumulator in
  primed = Ret 0
  ∧ send_all values acc
    = ((λ i, Ret (sum_sent (take (S i) values))) <$> seq 0 (length values),
       AccumulatorSuspended (sum_sent values)).
Proof.
  cbn. split; [done|]. rewrite send_all_suspended. f_equal.
Qed.

(** *** sub_generator and main_generator *)

(** The frame of [sub_generator]: not started, or suspended at one of its
    three [yield]s, or returned. *)
Inductive sub_frame :=
| SubCreated
| SubYielded1
| SubYielded2
| SubYielded3
| SubReturned.

Definition sub_generator : sub_frame := SubCreated.

Definition sub_generator_next (g : sub_frame) : next_result Z * sub_frame :=
  match g with
  | SubCreated => (Yielded 1, SubYielded1)
  | SubYielded1 => (Yielded 2, SubYielded2)
  | SubYielded2 => (Yielded 3, SubYielded3)
  | SubYielded3 => (StopIteration, SubReturned)
  | SubReturned => (StopIteration, SubReturned)
  end.

#[export] Instance sub_generator_iterator : Iterator sub_frame Z := sub_generator_next.

(** [yield from it; yield 4; yield 5] for an iterator [it]: the frame is
    inside the [yield from] with the iterator it delegates to, or suspended
    at one of the two [yield]s, or returned. *)
Section Delegation.
Context {D : Type} `{!Iterator D Z}.

Inductive main_frame :=
| MainCreated (sub : D)
| MainDelegating (sub : D)
| MainYielded4
| MainYielded5
| MainReturned.

(** One step of [yield from sub]: what [sub] yields is yielded; when [sub]
    stops, the body goes on to [yield 4]. *)
Definition yield_from (sub : D) : next_result Z * main_frame :=
  match next sub with
  | (Yielded x, sub') => (Yielded x, MainDelegating sub')
  | (StopIteration, _) => (Yielded 4, MainYielded4)
  end.

Definition main_generator_next (g : main_frame) : next_result Z * main_frame :=
  match g with
  | MainCreated sub => yield_from sub
  | MainDelegating sub => yield_from sub
  | MainYielded4 => (Yielded 5, MainYielded5)
  | MainYielded5 => (StopIteration, MainReturned)
  | MainReturned => (StopIteration, MainReturned)
  end.

#[export] Instance main_generator_iterator : Iterator main_frame Z := main_generator_next.

Lemma for_loop_delegating (fuel : nat) :
  ∀ (sub sub' : D) (xs : list Z),
    for_loop fuel sub = Some (xs, sub') →
    for_loop (fuel + 2) (MainDelegating sub) = Some (xs ++ [4; 5], MainReturned).
Proof.
  induction fuel as [|fuel IH]; intros sub sub' xs Hsub; [done|].
  cbn [for_loop Nat.add] in *.
  unfold next at 1. unfold main_generator_iterator at 1. cbn [main_generator_next].
  unfold yield_from. destruct (next sub) as [[x|] sub1].
  - destruct (for_loop fuel sub1) as [[xs1 sub2]|] eqn:Hrest; [|done].
    injection Hsub as <- <-. by rewrite (IH _ _ _ Hrest).
  - injection Hsub as <- <-.
    replace (fuel + 2)%nat with (S (S fuel)) by lia. reflexivity.
Qed.

End Delegation.
Arguments main_frame : clear implicits.

(** [main_generator()] delegates to a fresh [sub_generator()]. *)
Definition main_generator : main_frame sub_frame := MainCreated sub_generator.

(** X5.  [yield from] passes on what the inner iterator yields, in order and
    unchanged, and the delegating body goes on when the inner one stops: if a
    loop over the inner iterator gives [xs], the loop over the generator that
    delegates to it gives [xs] followed by 4 and 5.  For [main_generator()],
    which delegates to [sub_generator()], that is 1, 2, 3, 4, 5. *)
Theorem main_generator_delegates :
  (∀ (D : Type) `{!Iterator D Z} (fuel : nat) (sub sub' : D) (xs : list Z),
     for_loop fuel sub = Some (xs, sub') →
     for_loop (fuel + 2) (MainCreated sub) = Some (xs ++ [4; 5], MainReturned))
  ∧ for_loop 6 main_generator = Some ([1; 2; 3; 4; 5], MainReturned).
Proof.
  assert (∀ (D : Type) `{!Iterator D Z} (fuel : nat) (sub sub' : D) (xs : list Z),
     for_loop fuel sub = Some (xs, sub') →
     for_loop (fuel + 2) (MainCreated sub) = Some (xs ++ [4; 5], MainReturned)) as Hall.
  { intros D ? fuel sub sub' xs Hsub.
    rewrite <- (for_loop_delegating fuel sub sub' xs Hsub).
    destruct fuel; [done|]. reflexivity. }
  split; [exact Hall|].
  exact (Hall sub_frame _ 4%nat sub_generator SubReturned [1; 2; 3] eq_refl).
Qed.

(** *** generator_with_exception *)

(** The frame of [generator_with_exception]: not started, suspended at the
    [yield] inside [try], or finished. *)
Inductive closing_frame :=
| ClosingCreated
| ClosingSuspended
| ClosingFinished.

Definition generator_with_exception : closing_frame := ClosingCreated.

(** [next(gen)]: the body loops on a bare [yield], which yields [None]. *)
Definition generator_with_exception_next (g : closing_frame)
  : next_result unit * closing_frame :=
  match g with
  | ClosingCreated | ClosingSuspended => (Yielded (), ClosingSuspended)
  | ClosingFinished => (StopIteration, ClosingFinished)
  end.

#[export] Instance generator_with_exception_iterator : Iterator closing_frame unit :=
  generator_with_exception_next.

(** [gen.close()]: a generator suspended at the [yield] gets [GeneratorExit]
    there, so the handler prints and the body ends; a generator that has not
    started, or has finished, runs no code. *)
Definition generator_with_exception_close (g : closing_frame) (stdout : list string)
  : closing_frame * list string :=
  match g with
  | ClosingCreated => (ClosingFinished, stdout)
  | ClosingSuspended => (ClosingFinished, stdout ++ ["Generator closed!"])
  | ClosingFinished => (ClosingFinished, stdout)
  end.

Fixpoint close_times (m : nat) (g : closing_frame) (stdout : list string)
  : closing_frame * list string :=
  match m with
  | O => (g, stdout)
  | S m' =>
      let '(g, stdout) := generator_with_exception_close g stdout in
      close_times m' g stdout
  end.

Lemma close_times_finished (m : nat) (stdout : list string) :
  close_times m ClosingFinished stdout = (ClosingFinished, stdout).
Proof. induction m as [|m IH]; [done|]. apply IH. Qed.

(** X6.  After [n] calls of [next], each of which yields, closing the
    generator one or more times prints [Generator closed!] exactly once when
    it had been started ([n > 0]) and nothing when it had not; either way the
    generator is finished and a later [next] raises [StopIteration]. *)
Theorem generator_with_exception_closes_once (n m : nat) (stdout : list string) :
  (0 < m)%nat →
  next_results n generator_with_exception = replicate n (Yielded ())
  ∧ close_times m (advance n generator_with_exception) stdout
    = (ClosingFinished,
       stdout ++ (if decide (n = 0%nat) then [] else ["Generator closed!"]))
  ∧ (next ClosingFinished).1 = StopIteration.
Proof.
  intros Hm.
  assert (∀ k, next_results k ClosingSuspended = replicate k (Yielded ())) as Hsusp.
  { induction k as [|k IH]; [done|]. cbn. by rewrite <- IH. }
  assert (∀ k, advance k ClosingSuspended = ClosingSuspended) as Hadv.
  { induction k as [|k IH]; [done|]. apply IH. }
  split; [|split; [|done]].
  - destruct n as [|n]; [done|]. cbn. by rewrite <- Hsusp.
  - destruct m as [|m]; [lia|]. destruct n as [|n].
    + cbn. rewrite close_times_finished. by rewrite app_nil_r.
    + cbn [advance]. change (next generator_with_exception).2 with ClosingSuspended.
      rewrite Hadv. cbn. by rewrite close_times_finished.
Qed.

Lemma generator_with_exception_closes_once_witness :
  next_results 1 generator_with_exception = [Yielded ()]
  ∧ close_times 2 (advance 1 generator_with_exception) []
    = (ClosingFinished, ["Generator closed!"])
  ∧ (next ClosingFinished).1 = StopIteration.
Proof. exact (generator_with_exception_closes_once 1 2 [] ltac:(lia)). Defined.

(** *** read_large_file *)

(** The files by path, each the list of its lines, and the number of files
    that are open. *)
Record file_system := {
  files : gmap string (list string);
  open_files : nat
}.

(** The frame of [read_large_file]: not started (holding the path),
    suspended at the [yield] inside [with] and [for] (holding the lines still
    to read), or finished. *)
Inductive read_frame :=
| ReadCreated (file_path : string)
| ReadSuspended (remaining : list string)
| ReadFinished.

Inductive read_result :=
| ReadLine (line : string)
| ReadStopIteration
| ReadFileNotFoundError (file_path : string).

Definition read_large_file (file_path : string) : read_frame := ReadCreated file_path.

(** The head of [for line in file: yield line]; when the lines are exhausted
    the [with] block is left, which closes the file. *)
Definition read_for (remaining : list string) (fs : file_system)
  : read_result * read_frame * file_system :=
  match remaining with
  | line :: rest => (ReadLine line, ReadSuspended rest, fs)
  | [] =>
      (ReadStopIteration, ReadFinished,
       {| files := files fs; open_files := open_files fs - 1 |})
  end.

Definition read_large_file_next (g : read_frame) (fs : file_system)
  : read_result * read_frame * file_system :=
  match g with
  | ReadCreated file_path =>
      match files fs !! file_path with
      | None => (ReadFileNotFoundError file_path, ReadFinished, fs)
      | Some lines =>
          read_for lines {| files := files fs; open_files := S (open_files fs) |}
      end
  | ReadSuspended remaining => read_for remaining fs
  | ReadFinished => (ReadStopIteration, ReadFinished, fs)
  end.

(** The results of [n] successive calls of [next] on the generator. *)
Fixpoint read_results (n : nat) (g : read_frame) (fs : file_system)
  : list read_result * read_frame * file_system :=
  match n with
  | O => ([], g, fs)
  | S n' =>
      let '(r, g, fs) := read_large_file_next g fs in
      let '(rs, g, fs) := read_results n' g fs in
      (r :: rs, g, fs)
  end.

Lemma read_results_suspended (remaining : list string) :
  ∀ (k : nat) (fs : file_system),
    (k ≤ length remaining)%nat →
    read_results k (ReadSuspended remaining) fs
    = (ReadLine <$> take k remaining, ReadSuspended (drop k remaining), fs).
Proof.
  induction remaining as [|line rest IH]; intros [|k] fs Hk; simpl in Hk;
    try done; try lia.
  cbn [read_results read_large_file_next read_for].
  rewrite IH by lia. reflexivity.
Qed.

(** X7.  [read_large_file(path)] opens nothing until the first [next].  On
    an existing file the first [k] calls of [next] give its first [k] lines
    in order; the file is open from the first call on, while the generator
    is suspended in the loop, and the call after the last line raises
    [StopIteration] and leaves the file closed.  On a missing file the first
    [next] raises [FileNotFoundError] and nothing is opened. *)
Theorem read_large_file_yields_the_lines (file_path : string) (fs : file_system) :
  (∀ lines : list string,
     files fs !! file_path = Some lines →
     (∀ k : nat, (0 < k ≤ length lines)%nat →
        read_results k (read_large_file file_path) fs
        = (ReadLine <$> take k lines, ReadSuspended (drop k lines),
           {| files := files fs; open_files := S (open_files fs) |}))
     ∧ read_results (S (length lines)) (read_large_file file_path) fs
       = ((ReadLine <$> lines) ++ [ReadStopIteration], ReadFinished,
          {| files := files fs; open_files := open_files fs |}))
  ∧ (files fs !! file_path = None →
     read_large_file_next (read_large_file file_path) fs
     = (ReadFileNotFoundError file_path, ReadFinished, fs)).
Proof.
  split.
  - intros lines Hfile.
    assert (∀ k : nat, (0 < k ≤ length lines)%nat →
        read_results k (read_large_file file_path) fs
        = (ReadLine <$> take k lines, ReadSuspended (drop k lines),
           {| files := files fs; open_files := S (open_files fs) |})) as Hopen.
    { intros [|k] Hk; [lia|].
      cbn [read_results read_large_file read_large_file_next]. rewrite Hfile.
      destruct lines as [|line rest]; simpl in Hk; [lia|].
      cbn [read_for]. rewrite read_results_suspended by lia. reflexivity. }
    split; [exact Hopen|].
    destruct lines as [|line rest].
    + cbn. rewrite Hfile. cbn. by rewrite Nat.sub_0_r.
    + replace (S (length (line :: rest))) with (length (line :: rest) + 1)%nat by lia.
      assert (∀ n m g fs0 rs g' fs',
                read_results n g fs0 = (rs, g', fs') →
                read_results (n + m) g fs0
                = let '(rs2, g2, fs2) := read_results m g' fs' in (rs ++ rs2, g2, fs2))
        as Happ.
      { induction n as [|n IHn]; intros m g fs0 rs g' fs' Hn.
        - injection Hn as <- <- <-. simpl. by destruct (read_results m g fs0) as [[??]?].
        - cbn [read_results Nat.add] in *.
          destruct (read_large_file_next g fs0) as [[r g1] fs1].
          destruct (read_results n g1 fs1) as [[rs1 g2] fs2] eqn:Hrest.
          injection Hn as <- <- <-. rewrite (IHn m _ _ _ _ _ Hrest).
          by destruct (read_results m g2 fs2) as [[??]?]. }
      rewrite (Happ _ 1%nat _ _ _ _ _ (Hopen (length (line :: rest)) ltac:(simpl; lia))).
      rewrite firstn_all, drop_all. cbn. by rewrite Nat.sub_0_r.
  - intros Hmissing. cbn. by rewrite Hmissing.
Qed.

Lemma read_large_file_yields_the_lines_witness :
  read_results 3 (read_large_file "large_log.txt")
    {| files := {[ "large_log.txt" := ["a"; "b"] ]}; open_files := 0 |}
  = ([ReadLine "a"; ReadLine "b"; ReadStopIteration], ReadFinished,
     {| files := {[ "large_log.txt" := ["a"; "b"] ]}; open_files := 0 |})
  ∧ read_large_file_next (read_large_file "missing.txt")
      {| files := {[ "large_log.txt" := ["a"; "b"] ]}; open_files := 0 |}
    = (ReadFileNotFoundError "missing.txt", ReadFinished,
       {| files := {[ "large_log.txt" := ["a"; "b"] ]}; open_files := 0 |}).
Proof.
  split.
  - exact (proj2 (proj1 (read_large_file_yields_the_lines "large_log.txt"
             {| files := {[ "large_log.txt" := ["a"; "b"] ]}; open_files := 0 |})
             ["a"; "b"] eq_refl)).
  - exact (proj2 (read_large_file_yields_the_lines "missing.txt"
             {| files := {[ "large_log.txt" := ["a"; "b"] ]}; open_files := 0 |})
             eq_refl).
Defined.

(** *** data_stream and the loop that reads it *)

(** The frame of [data_stream]: the readings [random.randint(1, 100)] is
    going to return, as a function of the draw's number, and the number of
    draws made ([time.sleep] changes nothing here). *)
Record data_stream_frame := {
  readings : nat → Z;
  drawn : nat
}.

Definition data_stream (readings : nat → Z) : data_stream_frame :=
  {| readings := readings; drawn := 0 |}.

Definition data_stream_next (g : data_stream_frame) : next_result Z * data_stream_frame :=
  let data := readings g (drawn g) in
  (Yielded data, {| readings := readings g; drawn := S (drawn g) |}).

#[export] Instance data_stream_iterator : Iterator data_stream_frame Z := data_stream_next.

(** [for data in it: print(data); if stop(data): break], collecting the
    values printed. *)
Fixpoint for_loop_break {St A : Type} `{!Iterator St A} (stop : A → bool)
    (fuel : nat) (it : St) : option (list A * St) :=
  match fuel with
  | O => None
  | S fuel' =>
      match next it with
      | (Yielded x, it') =>
          if stop x then Some ([x], it')
          else
            match for_loop_break stop fuel' it' with
            | Some (xs, it'') => Some (x :: xs, it'')
            | None => None
            end
      | (StopIteration, it') => Some ([], it')
      end
  end.

Definition over_90 (data : Z) : bool := data >? 90.

Lemma for_loop_break_data_stream (r : nat → Z) (k : nat) :
  ∀ (d fuel : nat),
    (k < fuel)%nat →
    (∀ j, (j < k)%nat → r (d + j)%nat ≤ 90) →
    90 < r (d + k)%nat →
    for_loop_break over_90 fuel {| readings := r; drawn := d |}
    = Some ((λ j, r (d + j)%nat) <$> seq 0 (S k),
            {| readings := r; drawn := d + S k |}).
Proof.
  induction k as [|k IH]; intros d [|fuel] Hfuel Hbelow Habove; try lia.
  - cbn. unfold over_90. rewrite Nat.add_0_r in *.
    destruct (Z.gtb_spec (r d) 90); [|lia]. do 3 f_equal. lia.
  - cbn [for_loop_break]. unfold next at 1. unfold data_stream_iterator at 1.
    unfold data_stream_next.
    cbn [readings drawn]. unfold over_90 at 1.
    pose proof (Hbelow 0%nat ltac:(lia)) as H0. rewrite Nat.add_0_r in H0.
    destruct (Z.gtb_spec (r d) 90); [lia|].
    rewrite (IH (S d) fuel) by
      (try lia; try (intros j Hj; replace (S d + j)%nat with (d + S j)%nat by lia;
                     apply Hbelow; lia);
       replace (S d + k)%nat with (d + S k)%nat by lia; done).
    change (seq 0 (S (S k))) with (0%nat :: seq 1 (S k)).
    rewrite <- (fmap_S_seq 0 (S k)), fmap_cons, <- list_fmap_compose.
    rewrite Nat.add_0_r. f_equal. f_equal.
    + f_equal. apply list_fmap_ext. intros _ j _. simpl. f_equal. lia.
    + f_equal. lia.
Qed.

(** X8.  The loop over [data_stream()] prints every reading up to and
    including the first one above 90 and then stops, having drawn no reading
    beyond it; when no reading is above 90 the loop does not end. *)
Theorem data_stream_loop_stops_above_90 (r : nat → Z) :
  (∀ k fuel : nat,
     (k < fuel)%nat →
     (∀ j, (j < k)%nat → r j ≤ 90) →
     90 < r k →
     for_loop_break over_90 fuel (data_stream r)
     = Some (r <$> seq 0 (S k), {| readings := r; drawn := S k |}))
  ∧ ((∀ j, r j ≤ 90) →
     ∀ fuel, for_loop_break over_90 fuel (data_stream r) = None).
Proof.
  split.
  - intros k fuel Hfuel Hbelow Habove.
    exact (for_loop_break_data_stream r k 0 fuel Hfuel Hbelow Habove).
  - intros Hall fuel. unfold data_stream. generalize 0%nat as d. revert fuel.
    induction fuel as [|fuel IH]; intros d; [done|].
    cbn [for_loop_break]. unfold next at 1. unfold data_stream_iterator at 1.
    unfold data_stream_next.
    cbn [readings drawn]. unfold over_90 at 1.
    destruct (Z.gtb_spec (r d) 90) as [Hgt|_]; [specialize (Hall d); lia|].
    by rewrite IH.
Qed.

Lemma data_stream_loop_stops_above_90_witness :
  for_loop_break over_90 5 (data_stream (λ j, 40 * Z.of_nat j + 7))
  = Some ([7; 47; 87; 127], {| readings := λ j, 40 * Z.of_nat j + 7; drawn := 4 |}).
Proof.
  apply (proj1 (data_stream_loop_stops_above_90 (λ j, 40 * Z.of_nat j + 7)) 3%nat 5%nat).
  - lia.
  - intros j Hj. lia.
  - simpl. lia.
Defined.

End Iterators.

(** * Decorators_Python_Tutorial.ipynb *)
Module Decorators.
Local Open Scope Z_scope.

(** ** Computations of the decorated functions

    A call runs on a state [St] (a closure's [cache], the standard output, or
    whatever the wrapped function touches) and either returns, raises, or
    (with [None]) needs more fuel than it was given. *)
Definition M (St A : Type) : Type := St → option (outcome A * St).

Definition ret {St A} (a : A) : M St A := λ s, Some (Ret a, s).
Definition raise {St A} (e : exn) : M St A := λ s, Some (Raise e, s).
Definition get {St} : M St St := λ s, Some (Ret s, s).
Definition modify {St} (f : St → St) : M St unit := λ s, Some (Ret (), f s).
Definition bind {St A B} (m : M St A) (k : A → M St B) : M St B :=
  λ s, match m s with
       | Some (Ret a, s') => k a s'
       | Some (Raise e, s') => Some (Raise e, s')
       | None => None
       end.

#[export] Instance M_ret {St} : MRet (M St) := λ A, @ret St A.
#[export] Instance M_bind {St} : MBind (M St) := λ A B k m, @bind St A B m k.

(** A function that always returns, as a computation. *)
Definition returning {St A B} (f : A → St → B * St) : A → M St B :=
  λ a s, let '(b, s') := f a s in Some (Ret b, s').

(** The calls [w(k1); w(k2); ...] one after the other, with their results. *)
Fixpoint call_all {St K V} (w : K → M St V) (calls : list K) : M St (list V) :=
  match calls with
  | [] => ret []
  | k :: ks => v ← w k; vs ← call_all w ks; ret (v :: vs)
  end.

(** ** Calls and signatures

    A call site passes positional and keyword arguments; a [def] binds them
    to its parameters, to [*args] and to [**kwargs] (the snippets use no
    defaults and no keyword-only parameters). *)
Section Calls.
Context {val : Type}.

Record call := Call {
  positional : list val;
  keywords : list (string * val)
}.

Record signature := Signature {
  def_name : string;
  params : list string;
  var_positional : bool;
  var_keyword : bool
}.

Record bound := Bound {
  named : list (string * val);
  star_args : list val;
  star_kwargs : list (string * val)
}.

(** One keyword argument [k=v]: it fills the parameter [k], which must not be
    filled yet; a name that is no parameter goes to [**kwargs] when the
    signature has it and is a [TypeError] otherwise. *)
Definition bind_keyword (sig : signature) (b : bound) (kv : string * val) : outcome bound :=
  let '(k, v) := kv in
  if bool_decide (k ∈ params sig) then
    if bool_decide (k ∈ (named b).*1) then
      Raise (TypeError (def_name sig +:+ "() got multiple values for argument '" +:+ k +:+ "'"))
    else Ret (Bound (named b ++ [(k, v)]) (star_args b) (star_kwargs b))
  else if var_keyword sig then
    Ret (Bound (named b) (star_args b) (star_kwargs b ++ [(k, v)]))
  else
    Raise (TypeError (def_name sig +:+ "() got an unexpected keyword argument '" +:+ k +:+ "'")).

Fixpoint bind_keywords (sig : signature) (b : bound) (kws : list (string * val)) : outcome bound :=
  match kws with
  | [] => Ret b
  | kv :: kws' =>
      match bind_keyword sig b kv with
      | Ret b' => bind_keywords sig b' kws'
      | Raise e => Raise e
      end
  end.

Definition bind_arguments (sig : signature) (c : call) : outcome bound :=
  let n := length (params sig) in
  let extra := drop n (positional c) in
  if negb (var_positional sig) && negb (bool_decide (extra = [])) then
    Raise (TypeError (def_name sig +:+ "() takes fewer positional arguments than were given"))
  else
    match bind_keywords sig (Bound (zip (params sig) (positional c)) extra []) (keywords c) with
    | Raise e => Raise e
    | Ret b =>
        if bool_decide (Forall (λ p, p ∈ (named b).*1) (params sig)) then Ret b
        else Raise (TypeError (def_name sig +:+ "() missing required positional arguments"))
    end.

(** A [def] as a callable object: bind the arguments, then run the body. *)
Definition def {St V} (sig : signature) (body : bound → M St V) : call → M St V :=
  λ c, match bind_arguments sig c with
       | Ret b => body b
       | Raise e => raise e
       end.

End Calls.
Arguments call : clear implicits.
Arguments bound : clear implicits.

(** ** memoize and cache_results

    [val] is the type of the argument values.  The [cache] of each wrapper
    is keyed by the tuple of positional arguments, and [memoize] and
    [cache_results] below find a key by equality of the values: that is the
    dictionary of the code where [==] holds of identical values only, as it
    does on integers (the arguments of [fibonacci] and [compute_expensive]).
    For other arguments ([True == 1], a tuple that holds a list) the
    dictionary is the one of [memoize_keyed] further down. *)
Section Caching.
Context {val V : Type} `{Countable val}.

(** [def wrapper( *args )] *)
Definition wrapper_star_args : signature := Signature "wrapper" [] true false.

Definition memoize (func : call val → M (gmap (list val) V) V)
  : call val → M (gmap (list val) V) V :=
  def wrapper_star_args (λ b,
    let args := star_args b in
    cache ← get;
    match cache !! args with
    | Some v => ret v
    | None =>
        result ← func (Call args []);
        modify (<[args := result]>);;
        ret result
    end).

(** The state of [cache_results]'s wrapper is its [cache] and the standard
    output it prints on. *)
Definition print {C} (line : string) : M (C * list string) unit :=
  modify (λ st, (st.1, st.2 ++ [line])).

Definition cache_results (func : call val → M (gmap (list val) V * list string) V)
  : call val → M (gmap (list val) V * list string) V :=
  def wrapper_star_args (λ b,
    let args := star_args b in
    st ← get;
    match st.1 !! args with
    | Some v => print "Returning cached result";; ret v
    | None =>
        result ← func (Call args []);
        modify (λ st, (<[args := result]> st.1, st.2));;
        ret result
    end).

(** A function whose result depends only on its positional arguments. *)
Definition positional_function {St} (f : list val → V) : call val → M St V :=
  λ c, ret (f (positional c)).

(** Every entry of the cache is a value of [f]. *)
Definition cache_agrees (f : list val → V) (cache : gmap (list val) V) : Prop :=
  ∀ args v, cache !! args = Some v → v = f args.

End Caching.

(** ** fibonacci, decorated with memoize *)

(** [def fibonacci(n)]; the name [fibonacci] in the body is the global one,
    which the decorator has bound to the wrapper. *)
Definition fibonacci_def (fibonacci : call Z → M (gmap (list Z) Z) Z)
  : call Z → M (gmap (list Z) Z) Z :=
  def (Signature "fibonacci" ["n"] false false) (λ b,
    match named b with
    | [(_, n)] =>
        if n <? 2 then ret n
        else
          x ← fibonacci (Call [n - 1] []);
          y ← fibonacci (Call [n - 2] []);
          ret (x + y)
    | _ => raise (TypeError "fibonacci() takes exactly one argument")
    end).

Fixpoint fibonacci (fuel : nat) : call Z → M (gmap (list Z) Z) Z :=
  match fuel with
  | O => λ _ _, None
  | S fuel' => memoize (fibonacci_def (fibonacci fuel'))
  end.

(** The undecorated function, as the recurrence it computes: [n] below 2,
    and the sum of the two previous values from there. *)
Definition fibonacci_plain (n : Z) : Z :=
  if n <? 2 then n else Iterators.Fib (Z.to_nat n).

Definition fibonacci_of_args (args : list Z) : Z :=
  match args with
  | [n] => fibonacci_plain n
  | _ => 0
  end.

(** ** compute_expensive, decorated with cache_results *)

(** [def compute_expensive(x)] on integers; [time.sleep(2)] has no effect on
    the state modelled here. *)
Definition compute_expensive_def {St} : call Z → M St Z :=
  def (Signature "compute_expensive" ["x"] false false) (λ b,
    match named b with
    | [(_, x)] => ret (x * x)
    | _ => raise (TypeError "compute_expensive() takes exactly one argument")
    end).

Definition compute_expensive : call Z → M (gmap (list Z) Z * list string) Z :=
  cache_results compute_expensive_def.

(** ** repeat *)
Section Repeat.
Context {Args St V : Type}.

Definition range (n : Z) : list Z := seqZ 0 n.

(** [for _ in range(num_times): result = func( *args, **kwargs )].  The local
    [result] is unbound ([None]) until the loop body assigns it. *)
Fixpoint repeat_for (iterations : list Z) (func : Args → M St V) (args : Args)
    (result : option V) : M St (option V) :=
  match iterations with
  | [] => ret result
  | _ :: rest => r ← func args; repeat_for rest func args (Some r)
  end.

Definition repeat (num_times : Z) (func : Args → M St V) : Args → M St V :=
  λ args,
    result ← repeat_for (range num_times) func args None;
    match result with
    | Some r => ret r
    | None =>
        raise (UnboundLocalError
                 "cannot access local variable 'result' where it is not associated with a value")
    end.

(** [func] with a counter of its calls next to its state. *)
Definition counted (func : Args → M St V) : Args → M (nat * St) V :=
  λ args cs,
    match func args cs.2 with
    | Some (o, s') => Some (o, (S cs.1, s'))
    | None => None
    end.

(** The results of [n] successive calls [f args] and the state they leave. *)
Fixpoint successive_calls (n : nat) (f : Args → St → V * St) (args : Args) (s : St)
  : list V * St :=
  match n with
  | O => ([], s)
  | S n' =>
      let '(v, s1) := f args s in
      let '(vs, s2) := successive_calls n' f args s1 in
      (v :: vs, s2)
  end.

End Repeat.

(** ** validate_input and multiply *)

(** The values the snippet is called on: [None], booleans, integers and
    strings.  [bool] is a subclass of [int]. *)
Inductive value :=
| VNone
| VBool (b : bool)
| VInt (n : Z)
| VStr (s : string).

Definition isinstance_int (v : value) : bool :=
  match v with
  | VBool _ | VInt _ => true
  | VNone | VStr _ => false
  end.

(** The integer an [int] instance stands for in arithmetic. *)
Definition as_int (v : value) : option Z :=
  match v with
  | VBool b => Some (if b then 1 else 0)
  | VInt n => Some n
  | VNone | VStr _ => None
  end.

Definition string_times (s : string) (n : Z) : string :=
  Nat.iter (Z.to_nat n) (String.append s) EmptyString.

(** [x * y]: the product of two integers, a string repeated, or a
    [TypeError]. *)
Definition py_mul (x y : value) : outcome value :=
  match x, y with
  | VStr s, (VBool _ | VInt _) => Ret (VStr (string_times s (default 0 (as_int y))))
  | (VBool _ | VInt _), VStr s => Ret (VStr (string_times s (default 0 (as_int x))))
  | (VBool _ | VInt _), (VBool _ | VInt _) =>
      Ret (VInt (default 0 (as_int x) * default 0 (as_int y)))
  | _, _ => Raise (TypeError "unsupported operand type(s) for *")
  end.

Definition validate_input (func : value → value → outcome value)
  : value → value → outcome value :=
  λ x y,
    if negb (isinstance_int x) || negb (isinstance_int y) then
      Raise (ValueError "Both x and y need to be integers")
    else func x y.

Definition multiply_def (x y : value) : outcome value := py_mul x y.

Definition multiply : value → value → outcome value := validate_input multiply_def.

(** ** Facts *)

Ltac unfold_M :=
  unfold mbind, mret, M_bind, M_ret, bind, ret, raise, get, modify, print,
    positional_function, returning in *.

Section CachingFacts.
Context {val V : Type} `{Countable val}.

Lemma bind_star_args_positional (args : list val) :
  bind_arguments wrapper_star_args (Call args []) = Ret (Bound [] args []).
Proof. reflexivity. Qed.

Lemma bind_star_args_keyword (c : call val) :
  keywords c ≠ [] →
  ∃ msg, bind_arguments wrapper_star_args c = Raise (TypeError msg).
Proof.
  destruct c as [pos [|[k v] kws]]; [done|]. intros _.
  eexists. unfold bind_arguments. cbn. reflexivity.
Qed.

Lemma memoize_sound (f : list val → V) func args cache :
  cache_agrees f cache →
  (cache !! args = None →
   ∃ cache1, func (Call args []) cache = Some (Ret (f args), cache1)
             ∧ cache_agrees f cache1) →
  ∃ cache', memoize func (Call args []) cache = Some (Ret (f args), cache')
            ∧ cache_agrees f cache'.
Proof.
  intros Hagree Hfunc. unfold memoize, def.
  rewrite bind_star_args_positional. cbn [star_args]. unfold_M.
  destruct (cache !! args) as [v|] eqn:Hlookup.
  - exists cache. rewrite (Hagree _ _ Hlookup). done.
  - destruct (Hfunc eq_refl) as (cache1 & -> & Hagree1).
    eexists. split; [reflexivity|].
    intros args' v'. rewrite lookup_insert. case_decide; [naive_solver|].
    apply Hagree1.
Qed.

Lemma memoize_positional_function (f : list val → V) args cache :
  cache_agrees f cache →
  ∃ cache', memoize (positional_function f) (Call args []) cache
            = Some (Ret (f args), cache')
            ∧ cache_agrees f cache'.
Proof.
  intros Hagree. apply memoize_sound; [done|].
  intros _. exists cache. done.
Qed.

Lemma call_all_memoize (f : list val → V) (calls : list (list val)) :
  ∀ cache, cache_agrees f cache →
    ∃ cache', call_all (memoize (positional_function f))
                       ((λ args, Call args []) <$> calls) cache
              = Some (Ret (f <$> calls), cache')
              ∧ cache_agrees f cache'.
Proof.
  induction calls as [|args calls IH]; intros cache Hagree.
  - exists cache. done.
  - destruct (memoize_positional_function f args cache Hagree)
      as (cache1 & Hcall & Hagree1).
    destruct (IH cache1 Hagree1) as (cache2 & Hrest & Hagree2).
    exists cache2. split; [|done].
    cbn [call_all fmap list_fmap]. unfold_M.
    rewrite Hcall. unfold_M. rewrite Hrest. done.
Qed.

Lemma cache_agrees_empty (f : list val → V) : cache_agrees f ∅.
Proof. intros args v. rewrite lookup_empty. done. Qed.

End CachingFacts.

Lemma fibonacci_plain_base (n : Z) : n < 2 → fibonacci_plain n = n.
Proof.
  intros Hn. unfold fibonacci_plain.
  destruct (Z.ltb_spec n 2); [done|lia].
Qed.

Lemma fibonacci_plain_step (n : Z) :
  2 ≤ n → fibonacci_plain n = fibonacci_plain (n - 1) + fibonacci_plain (n - 2).
Proof.
  intros Hn.
  assert (∀ m, 0 ≤ m → fibonacci_plain m = Iterators.Fib (Z.to_nat m)) as Hfib.
  { intros m Hm. unfold fibonacci_plain.
    destruct (Z.ltb_spec m 2) as [Hlt|]; [|done].
    assert (m = 0 ∨ m = 1) as [-> | ->] by lia; reflexivity. }
  rewrite !Hfib by lia.
  replace (Z.to_nat n) with (S (S (Z.to_nat (n - 2)))) by lia.
  replace (Z.to_nat (n - 1)) with (S (Z.to_nat (n - 2))) by lia.
  rewrite Iterators.Fib_step. reflexivity.
Qed.

Lemma fibonacci_sound (fuel : nat) :
  ∀ n cache,
    (Z.to_nat n < fuel)%nat →
    cache_agrees fibonacci_of_args cache →
    ∃ cache', fibonacci fuel (Call [n] []) cache
              = Some (Ret (fibonacci_plain n), cache')
              ∧ cache_agrees fibonacci_of_args cache'.
Proof.
  induction fuel as [|fuel IH]; intros n cache Hfuel Hagree; [lia|].
  cbn [fibonacci].
  apply (memoize_sound fibonacci_of_args _ [n] cache Hagree).
  intros _. unfold fibonacci_def, def.
  change (bind_arguments (Signature "fibonacci" ["n"] false false) (Call [n] []))
    with (Ret (Bound [("n", n)] [] [])).
  cbn [named fibonacci_of_args].
  destruct (Z.ltb_spec n 2) as [Hlt|Hge].
  - exists cache. rewrite fibonacci_plain_base by done. done.
  - destruct (IH (n - 1) cache ltac:(lia) Hagree) as (cache1 & Hx & Hagree1).
    destruct (IH (n - 2) cache1 ltac:(lia) Hagree1) as (cache2 & Hy & Hagree2).
    exists cache2. split; [|done].
    unfold_M. rewrite Hx, Hy. rewrite (fibonacci_plain_step n) by done. done.
Qed.

(** *** memoize with the dictionary's comparison of keys

    A dictionary finds a key by its hash and [==], not by identity: [True],
    [1] and [1.0] are one key, and a tuple that holds a list has no hash, so
    that [args in cache] raises [TypeError].  [key] gives a tuple of
    arguments its class under [==], and [None] when the tuple is unhashable.
    [memoize] above is the case where [==] is equality of the values, as it
    is on integers. *)
Section Keyed.
Context {val K V : Type} `{Countable K}.
Variable key : list val → option K.

Definition memoize_keyed (func : call val → M (gmap K V) V)
  : call val → M (gmap K V) V :=
  def wrapper_star_args (λ b,
    let args := star_args b in
    match key args with
    | None => raise (TypeError "unhashable type")
    | Some k =>
        cache ← get;
        match cache !! k with
        | Some v => ret v
        | None =>
            result ← func (Call args []);
            modify (<[k := result]>);;
            ret result
        end
    end).

(** Every entry of the cache is a value of [f] at the tuples of its key. *)
Definition cache_agrees_keyed (f : list val → V) (cache : gmap K V) : Prop :=
  ∀ args k v, key args = Some k → cache !! k = Some v → v = f args.

(** [f] gives the same result on tuples that compare equal. *)
Definition respects_keys (f : list val → V) : Prop :=
  ∀ a b k, key a = Some k → key b = Some k → f a = f b.

Lemma memoize_keyed_call (f : list val → V) (args : list val) (k : K)
    (cache : gmap K V) :
  respects_keys f → cache_agrees_keyed f cache → key args = Some k →
  memoize_keyed (positional_function f) (Call args []) cache
  = Some (Ret (f args), <[k := f args]> cache)
  ∧ cache_agrees_keyed f (<[k := f args]> cache).
Proof.
  intros Hrespects Hagree Hkey.
  assert (cache_agrees_keyed f (<[k := f args]> cache)) as Hagree'.
  { intros args' k' v' Hkey'. rewrite lookup_insert. case_decide as Hk.
    - subst k'. intros [= <-]. by apply (Hrespects _ _ k).
    - by apply Hagree. }
  split; [|done].
  unfold memoize_keyed, def. rewrite bind_star_args_positional.
  cbn [star_args]. rewrite Hkey. unfold_M.
  destruct (cache !! k) as [v|] eqn:Hlookup; [|done].
  assert (v = f args) as -> by (by apply (Hagree args k)).
  by rewrite insert_id.
Qed.

Lemma memoize_keyed_unhashable (func : call val → M (gmap K V) V)
    (args : list val) (cache : gmap K V) :
  key args = None →
  memoize_keyed func (Call args []) cache
  = Some (Raise (TypeError "unhashable type"), cache).
Proof.
  intros Hkey. unfold memoize_keyed, def. rewrite bind_star_args_positional.
  cbn [star_args]. by rewrite Hkey.
Qed.

Lemma call_all_memoize_keyed (f : list val → V) (calls : list (list val)) :
  respects_keys f →
  Forall (λ args, is_Some (key args)) calls →
  ∀ cache, cache_agrees_keyed f cache →
    ∃ cache', call_all (memoize_keyed (positional_function f))
                       ((λ args, Call args []) <$> calls) cache
              = Some (Ret (f <$> calls), cache')
              ∧ cache_agrees_keyed f cache'.
Proof.
  intros Hrespects Hhashable.
  induction Hhashable as [|args calls [k Hkey] _ IH]; intros cache Hagree.
  - exists cache. done.
  - destruct (memoize_keyed_call f args k cache Hrespects Hagree Hkey)
      as [Hcall Hagree1].
    destruct (IH _ Hagree1) as (cache2 & Hrest & Hagree2).
    exists cache2. split; [|done].
    cbn [call_all fmap list_fmap]. unfold mbind, M_bind, bind.
    rewrite Hcall, Hrest. done.
Qed.

Lemma cache_agrees_keyed_empty (f : list val → V) : cache_agrees_keyed f ∅.
Proof. intros args k v _. rewrite lookup_empty. done. Qed.

End Keyed.

(** Where [==] is equality of the values, the dictionary is [memoize]'s. *)
Lemma memoize_keyed_Some {val V : Type} `{Countable val}
    (func : call val → M (gmap (list val) V) V) (c : call val)
    (cache : gmap (list val) V) :
  memoize_keyed Some func c cache = memoize func c cache.
Proof. reflexivity. Qed.

(** The keys of the values of the notebook: [None], the integers (which the
    booleans are, [False == 0] and [True == 1]) and the strings. *)
Inductive dict_key :=
| KeyNone
| KeyInt (n : Z)
| KeyStr (s : string).

#[export] Instance dict_key_eq_dec : EqDecision dict_key.
Proof. solve_decision. Defined.

#[export] Instance dict_key_countable : Countable dict_key.
Proof.
  apply (inj_countable'
           (λ k, match k with
                 | KeyNone => inl ()
                 | KeyInt n => inr (inl n)
                 | KeyStr s => inr (inr s)
                 end)
           (λ x, match x with
                 | inl _ => KeyNone
                 | inr (inl n) => KeyInt n
                 | inr (inr s) => KeyStr s
                 end)).
  by intros [].
Defined.

Definition value_key (v : value) : dict_key :=
  match v with
  | VNone => KeyNone
  | VBool b => KeyInt (if b then 1 else 0)
  | VInt n => KeyInt n
  | VStr s => KeyStr s
  end.

(** An argument of a call: a value, or a list of values, which has no
    hash. *)
Definition argument : Type := value + list value.

Definition argument_key (a : argument) : option dict_key :=
  match a with
  | inl v => Some (value_key v)
  | inr _ => None
  end.

Definition tuple_key (args : list argument) : option (list dict_key) :=
  mapM argument_key args.

(** [lambda x: isinstance(x, bool)] and [len], functions of their
    positional arguments. *)
Definition isinstance_bool (args : list argument) : bool :=
  match args with
  | [inl (VBool _)] => true
  | _ => false
  end.

Definition len (args : list argument) : nat :=
  match args with
  | [inr items] => length items
  | _ => 0
  end.

(** C2 as stated fails on the dictionary of the code: after [w(1)] the call
    [w(True)] finds the entry of [1] and returns [f(1)], not [f(True)]; and
    on a list argument the wrapper raises [TypeError] where [len] returns. *)
Lemma memoize_not_extensionally_equal :
  ¬ (∀ (f : list argument → bool) (calls : list (list argument)),
       ∃ cache,
         call_all (memoize_keyed tuple_key (positional_function f))
                  ((λ args, Call args []) <$> calls) ∅
         = Some (Ret (f <$> calls), cache))
  ∧ call_all (memoize_keyed tuple_key (positional_function isinstance_bool))
             [Call [inl (VInt 1)] []; Call [inl (VBool true)] []] ∅
    = Some (Ret [false; false], {[ [KeyInt 1] := false ]})
  ∧ memoize_keyed tuple_key (positional_function len) (Call [inr [VInt 1; VInt 2]] []) ∅
    = Some (Raise (TypeError "unhashable type"), ∅).
Proof.
  assert (call_all (memoize_keyed tuple_key (positional_function isinstance_bool))
             [Call [inl (VInt 1)] []; Call [inl (VBool true)] []] ∅
          = Some (Ret [false; false], {[ [KeyInt 1] := false ]})) as Hrun.
  { cbn [call_all]. unfold mbind, M_bind, bind.
    unfold memoize_keyed at 1, def. rewrite bind_star_args_positional.
    cbn [star_args tuple_key mapM argument_key value_key mbind option_bind mret option_ret].
    unfold mbind, M_bind, bind, get, positional_function, ret, modify.
    rewrite lookup_empty. cbn [positional isinstance_bool].
    unfold memoize_keyed at 1, def. rewrite bind_star_args_positional.
    cbn [star_args tuple_key mapM argument_key value_key mbind option_bind mret option_ret].
    unfold mbind, M_bind, bind, get, positional_function, ret, modify.
    rewrite lookup_insert_eq. by rewrite insert_empty. }
  split; [|split; [exact Hrun|]].
  - intros Hclaim.
    destruct (Hclaim isinstance_bool [[inl (VInt 1)]; [inl (VBool true)]])
      as [cache Hcache].
    pose proof (eq_trans (eq_sym Hrun) Hcache) as Heq.
    cbn [fmap list_fmap isinstance_bool] in Heq. discriminate Heq.
  - by apply memoize_keyed_unhashable.
Qed.

(** C2 (as the code has it).  For a function [f] of its positional
    arguments that gives the same result on tuples that compare equal, the
    wrapper of [memoize] returns [f(args)] on every hashable tuple, hit or
    miss, on any cache that holds values of [f] only, and so on any sequence
    of calls from the empty cache.  On an unhashable tuple the wrapper raises
    [TypeError] and leaves the cache.  On tuples of integers, which compare
    equal only when they are the same, the dictionary is the one of
    [memoize], and the wrapper returns the values of every function [f].
    The decorated recursive [fibonacci] returns, with fuel above [n], what
    the plain recurrence gives, and [fibonacci(10)] is 55. *)
Theorem memoize_equal_on_equal_keys :
  (∀ (val K V : Type) `{Countable K} (key : list val → option K) (f : list val → V)
     (args : list val) (k : K) (cache : gmap K V),
     respects_keys key f → cache_agrees_keyed key f cache → key args = Some k →
     memoize_keyed key (positional_function f) (Call args []) cache
     = Some (Ret (f args), <[k := f args]> cache)
     ∧ cache_agrees_keyed key f (<[k := f args]> cache))
  ∧ (∀ (val K V : Type) `{Countable K} (key : list val → option K) (f : list val → V)
       (calls : list (list val)),
       respects_keys key f → Forall (λ args, is_Some (key args)) calls →
       ∃ cache,
         call_all (memoize_keyed key (positional_function f))
                  ((λ args, Call args []) <$> calls) ∅
         = Some (Ret (f <$> calls), cache))
  ∧ (∀ (val K V : Type) `{Countable K} (key : list val → option K)
       (func : call val → M (gmap K V) V) (args : list val) (cache : gmap K V),
       key args = None →
       ∃ msg, memoize_keyed key func (Call args []) cache
              = Some (Raise (TypeError msg), cache))
  ∧ (∀ (V : Type) (func : call Z → M (gmap (list Z) V) V) (c : call Z)
       (cache : gmap (list Z) V),
       memoize func c cache = memoize_keyed Some func c cache)
  ∧ (∀ (V : Type) (f : list Z → V) (calls : list (list Z)),
       ∃ cache,
         call_all (memoize (positional_function f)) ((λ args, Call args []) <$> calls) ∅
         = Some (Ret (f <$> calls), cache))
  ∧ (∀ (n : Z) (fuel : nat), (Z.to_nat n < fuel)%nat →
       ∃ cache, fibonacci fuel (Call [n] []) ∅ = Some (Ret (fibonacci_plain n), cache))
  ∧ (∃ cache, fibonacci 11 (Call [10] []) ∅ = Some (Ret 55, cache)).
Proof.
  split; [|split; [|split; [|split; [|split; [|split]]]]].
  - intros val K V ?? key f args k cache Hrespects Hagree Hkey.
    by apply memoize_keyed_call.
  - intros val K V ?? key f calls Hrespects Hhashable.
    destruct (call_all_memoize_keyed key f calls Hrespects Hhashable ∅
                (cache_agrees_keyed_empty key f)) as (cache & Hcalls & _).
    by exists cache.
  - intros val K V ?? key func args cache Hkey. eexists.
    by apply memoize_keyed_unhashable.
  - intros V func c cache. symmetry. apply memoize_keyed_Some.
  - intros V f calls.
    destruct (call_all_memoize f calls ∅ (cache_agrees_empty f)) as (cache & Hcalls & _).
    by exists cache.
  - intros n fuel Hfuel.
    destruct (fibonacci_sound fuel n ∅ Hfuel (cache_agrees_empty _)) as (cache & Hfib & _).
    by exists cache.
  - destruct (fibonacci_sound 11 10 ∅ ltac:(simpl; lia) (cache_agrees_empty _))
      as (cache & Hfib & _).
    by exists cache.
Qed.

(** The sum of a tuple of values, which is the same on [(True,)] and
    [(1,)], called on the one and then on the other; and the notebook's
    [fibonacci(10)]. *)
Definition sum_of_arguments (args : list argument) : Z :=
  foldr (λ a acc, match a with
                  | inl v => default 0 (as_int v) + acc
                  | inr _ => acc
                  end) 0 args.

Lemma sum_of_arguments_respects_keys : respects_keys tuple_key sum_of_arguments.
Proof.
  intros a. induction a as [|[v|l] a IH]; intros b k Ha Hb; [| |done].
  - cbn in Ha. injection Ha as <-. destruct b as [|[w|l] b]; [done| |done].
    cbn in Hb. by destruct (mapM argument_key b).
  - cbn in Ha. destruct (mapM argument_key a) as [ka|] eqn:Hka; [|done].
    cbn in Ha. injection Ha as <-.
    destruct b as [|[w|l] b]; [done| |done].
    cbn in Hb. destruct (mapM argument_key b) as [kb|] eqn:Hkb; [|done].
    cbn in Hb. injection Hb as Hvw ->.
    cbn [sum_of_arguments foldr]. fold (sum_of_arguments a) (sum_of_arguments b).
    rewrite (IH b ka Hka Hkb). f_equal.
    destruct v as [|[]|n|s], w as [|[]|m|t]; by simplify_eq/=.
Qed.

Lemma memoize_equal_on_equal_keys_witness :
  memoize_keyed tuple_key (positional_function sum_of_arguments)
    (Call [inl (VBool true)] []) {[ [KeyInt 1] := 1 ]}
  = Some (Ret 1, <[ [KeyInt 1] := 1 ]> {[ [KeyInt 1] := 1 ]})
  ∧ (∃ cache, fibonacci 11 (Call [10] []) ∅ = Some (Ret 55, cache)).
Proof.
  destruct memoize_equal_on_equal_keys as (Hcall & _ & _ & _ & _ & _ & Hfib).
  split; [|exact Hfib].
  apply (Hcall argument (list dict_key) Z _ _ tuple_key sum_of_arguments
           [inl (VBool true)] [KeyInt 1] {[ [KeyInt 1] := 1 ]});
    [apply sum_of_arguments_respects_keys| |done].
  intros args k v Hargs Hlookup.
  apply lookup_singleton_Some in Hlookup as [<- <-].
  destruct args as [|[w|l] [|x args]]; cbn in Hargs; try done.
  - injection Hargs as Hw. destruct w as [|[]|n|s]; by simplify_eq/=.
  - destruct x as [x|x]; [|done]. cbn in Hargs.
    by destruct (mapM argument_key args).
Defined.

(** C9.  A call that passes a keyword argument to the wrapper of [memoize] or
    of [cache_results] raises [TypeError], whatever the wrapped function is:
    the function is not called, and the cache and the output stay as they
    were. *)
Theorem wrappers_reject_keyword_arguments
    (val V : Type) `{Countable val} (c : call val) :
  keywords c ≠ [] →
  (∀ func cache, ∃ msg, memoize (V:=V) func c cache = Some (Raise (TypeError msg), cache))
  ∧ (∀ func st, ∃ msg, cache_results (V:=V) func c st = Some (Raise (TypeError msg), st)).
Proof.
  intros Hkw. destruct (bind_star_args_keyword c Hkw) as [msg Hbind].
  split; intros func st; exists msg.
  - unfold memoize, def. rewrite Hbind. done.
  - unfold cache_results, def. rewrite Hbind. done.
Qed.

(** The undecorated [compute_expensive] accepts [x=4] and returns 16. *)
Lemma compute_expensive_def_keyword (st : gmap (list Z) Z * list string) :
  compute_expensive_def (Call [] [("x", 4)]) st = Some (Ret 16, st).
Proof. reflexivity. Qed.

Lemma wrappers_reject_keyword_arguments_witness :
  (∃ msg, memoize compute_expensive_def (Call [] [("x", 4)]) ∅
          = Some (Raise (TypeError msg), ∅))
  ∧ (∃ msg, compute_expensive (Call [] [("x", 4)]) (∅, [])
            = Some (Raise (TypeError msg), (∅, []))).
Proof.
  destruct (wrappers_reject_keyword_arguments Z Z (Call [] [("x", 4)]) ltac:(done))
    as [Hmemoize Hcache].
  split.
  - exact (Hmemoize compute_expensive_def ∅).
  - exact (Hcache compute_expensive_def (∅, [])).
Defined.

(** *** validate_input *)

Lemma isinstance_int_as_int (v : value) :
  isinstance_int v = true ↔ is_Some (as_int v).
Proof. destruct v; simpl; split; intros Hv; done || by inversion Hv. Qed.

(** C7.  The decorated [multiply] raises [ValueError] exactly when one of its
    two arguments is not an [int] instance, then with the message [Both x and
    y need to be integers]; on two [int] instances it returns their
    product. *)
Theorem multiply_validates_integers (x y : value) :
  ((∃ msg, multiply x y = Raise (ValueError msg))
   ↔ isinstance_int x = false ∨ isinstance_int y = false)
  ∧ (isinstance_int x = false ∨ isinstance_int y = false →
     multiply x y = Raise (ValueError "Both x and y need to be integers"))
  ∧ (∀ a b : Z, as_int x = Some a → as_int y = Some b →
       multiply x y = Ret (VInt (a * b))).
Proof.
  assert (∀ a b : Z, as_int x = Some a → as_int y = Some b →
            multiply x y = Ret (VInt (a * b))) as Hints.
  { intros a b Hx Hy.
    destruct x, y; simpl in Hx, Hy; try discriminate;
      injection Hx as <-; injection Hy as <-; reflexivity. }
  assert (isinstance_int x = false ∨ isinstance_int y = false →
          multiply x y = Raise (ValueError "Both x and y need to be integers")) as Hraise.
  { unfold multiply, validate_input. intros [-> | ->]; simpl; [done|].
    by rewrite orb_true_r. }
  split; [|done]. split.
  - intros [msg Hmsg].
    destruct (isinstance_int x) eqn:Hx; [|by left].
    destruct (isinstance_int y) eqn:Hy; [|by right].
    apply isinstance_int_as_int in Hx as [a Ha], Hy as [b Hb].
    rewrite (Hints a b Ha Hb) in Hmsg. discriminate.
  - intros Hnot. eexists. by apply Hraise.
Qed.

(** The cell's call [multiply(2, "3")] raises. *)
Lemma multiply_validates_integers_witness :
  multiply (VInt 2) (VStr "3") = Raise (ValueError "Both x and y need to be integers")
  ∧ multiply (VInt 6) (VBool true) = Ret (VInt 6).
Proof.
  destruct (multiply_validates_integers (VInt 2) (VStr "3")) as (_ & Hraise & _).
  destruct (multiply_validates_integers (VInt 6) (VBool true)) as (_ & _ & Hints).
  split.
  - apply Hraise. by right.
  - exact (Hints 6 1 eq_refl eq_refl).
Defined.

(** *** repeat *)
Section RepeatFacts.
Context {Args St V : Type}.

Lemma repeat_for_counted (f : Args → St → V * St) (args : Args) (iterations : list Z) :
  ∀ (result : option V) (c : nat) (s : St),
    repeat_for iterations (counted (returning f)) args result (c, s)
    = Some (Ret (match last (successive_calls (length iterations) f args s).1 with
                 | Some r => Some r
                 | None => result
                 end),
            ((c + length iterations)%nat,
             (successive_calls (length iterations) f args s).2)).
Proof.
  induction iterations as [|i iterations IH]; intros result c s.
  - cbn. unfold_M. do 3 f_equal. lia.
  - cbn [repeat_for length successive_calls]. unfold_M.
    unfold counted at 1. cbn [fst snd].
    destruct (f args s) as [v s1] eqn:Hf.
    rewrite IH.
    destruct (successive_calls (length iterations) f args s1) as [vs s2].
    cbn [fst snd]. rewrite last_cons.
    do 2 f_equal; [by destruct (last vs)|]. f_equal. lia.
Qed.

Lemma successive_calls_length (f : Args → St → V * St) (args : Args) (n : nat) :
  ∀ s, length (successive_calls n f args s).1 = n.
Proof.
  induction n as [|n IH]; intros s; [done|].
  cbn [successive_calls]. destruct (f args s) as [v s1].
  specialize (IH s1). destruct (successive_calls n f args s1) as [vs s2].
  simpl in *. by rewrite IH.
Qed.

End RepeatFacts.

(** C10.  With [num_times] below 1 (in particular 0) every call of the
    wrapper of [repeat(num_times)] raises [UnboundLocalError] without calling
    the wrapped function.  With [num_times >= 1] and a wrapped function that
    returns, the wrapper calls it exactly [num_times] times, one after the
    other, and returns the result of the last call. *)
Theorem repeat_needs_a_positive_count :
  (∀ (Args St V : Type) (num_times : Z) (func : Args → M St V) (args : Args)
     (c : nat) (s : St),
     num_times ≤ 0 →
     ∃ msg, repeat num_times (counted func) args (c, s)
            = Some (Raise (UnboundLocalError msg), (c, s)))
  ∧ (∀ (Args St V : Type) (num_times : Z) (f : Args → St → V * St) (args : Args)
       (c : nat) (s : St),
       1 ≤ num_times →
       ∃ results r s',
         successive_calls (Z.to_nat num_times) f args s = (results, s')
         ∧ length results = Z.to_nat num_times
         ∧ last results = Some r
         ∧ repeat num_times (counted (returning f)) args (c, s)
           = Some (Ret r, ((c + Z.to_nat num_times)%nat, s'))).
Proof.
  split.
  - intros Args St V num_times func args c s Hn. eexists.
    unfold repeat, range. rewrite seqZ_nil by done. reflexivity.
  - intros Args St V num_times f args c s Hn.
    pose proof (successive_calls_length f args (Z.to_nat num_times) s) as Hlen.
    pose proof (repeat_for_counted f args (range num_times) None c s) as Hfor.
    unfold range in Hfor. rewrite length_seqZ in Hfor.
    destruct (successive_calls (Z.to_nat num_times) f args s) as [results s'].
    cbn [fst snd] in *.
    destruct (last results) as [r|] eqn:Hlast.
    + exists results, r, s'. repeat split; [done..|].
      unfold repeat, range. unfold_M. rewrite Hfor. done.
    + apply last_None in Hlast. subst results. simpl in Hlen. lia.
Qed.

(** The cell's [@repeat(num_times=3)] on a function that counts its calls in
    its state, and [repeat(0)] on the same function. *)
Lemma repeat_needs_a_positive_count_witness :
  repeat 3 (counted (returning (λ (_ : unit) (s : Z), (s, s + 1)))) () (0%nat, 10)
  = Some (Ret 12, (3%nat, 13))
  ∧ ∃ msg, repeat 0 (counted (returning (λ (_ : unit) (s : Z), (s, s + 1)))) () (0%nat, 10)
           = Some (Raise (UnboundLocalError msg), (0%nat, 10)).
Proof.
  destruct repeat_needs_a_positive_count as [Hzero Hpos].
  split.
  - destruct (Hpos unit Z Z 3 (λ _ s, (s, s + 1)) () 0%nat 10 ltac:(lia))
      as (results & r & s' & Hcalls & _ & Hlast & Hrepeat).
    vm_compute in Hcalls. injection Hcalls as <- <-.
    vm_compute in Hlast. injection Hlast as <-. exact Hrepeat.
  - exact (Hzero unit Z Z 0 (returning (λ _ s, (s, s + 1))) () 0%nat 10 ltac:(lia)).
Defined.

(** ** More of the notebook's decorators *)

#[local] Set Warnings "-clear-no-such-hyp".

(** *** simple_decorator *)

(** [def wrapper()]: a line before the call of [func], a line after it; the
    wrapper has no [return], so what [func] returns is dropped.  The state is
    whatever [func] works on, next to the standard output. *)
Definition simple_decorator {C V} (func : M (C * list string) V)
  : M (C * list string) unit :=
  print "Something is happening before the function is called.";;
  func;;
  print "Something is happening after the function is called.".

(** X9.  Decorating [n] times over prints the line before [n] times, then
    runs the function once, then prints the line after [n] times; whatever
    the function returns, the decorated function returns [None].  When the
    function raises, the exception comes out of every wrapper and no line
    after is printed. *)
Theorem simple_decorator_brackets_the_call
    (C : Type) (func : M (C * list string) unit) (n : nat) (c : C) (out : list string) :
  let before := "Something is happening before the function is called." in
  let after := "Something is happening after the function is called." in
  (∀ v c' out',
     func (c, out ++ replicate n before) = Some (Ret v, (c', out')) →
     Nat.iter n simple_decorator func (c, out)
     = Some (Ret (), (c', out' ++ replicate n after)))
  ∧ (∀ e st',
       func (c, out ++ replicate n before) = Some (Raise e, st') →
       Nat.iter n simple_decorator func (c, out) = Some (Raise e, st')).
Proof.
  intros before after. revert out.
  induction n as [|n IH]; intros out.
  - change (Nat.iter 0 simple_decorator func) with func.
    cbn [replicate]. rewrite app_nil_r. split.
    + intros [] c' out' ->. by rewrite app_nil_r.
    + by intros e st' ->.
  - destruct (IH (out ++ [before])) as [IHret IHraise].
    rewrite <- app_assoc in IHret, IHraise. cbn [app] in IHret, IHraise.
    change (Nat.iter (S n) simple_decorator func)
      with (simple_decorator (Nat.iter n simple_decorator func)).
    cbn [replicate].
    split; [intros v c' out' Hfunc | intros e st' Hfunc];
      unfold simple_decorator at 1; unfold_M; unfold modify;
      cbn [fst snd]; fold before after.
    + rewrite (IHret v c' out' Hfunc). cbn [fst snd].
      rewrite <- app_assoc, <- (replicate_S_end n after). done.
    + by rewrite (IHraise e st' Hfunc).
Qed.

Lemma simple_decorator_brackets_the_call_witness :
  Nat.iter 2 simple_decorator (print (C:=unit) "Hello!") ((), [])
  = Some (Ret (), ((), ["Something is happening before the function is called.";
                        "Something is happening before the function is called.";
                        "Hello!";
                        "Something is happening after the function is called.";
                        "Something is happening after the function is called."])).
Proof.
  exact (proj1 (simple_decorator_brackets_the_call unit (print "Hello!") 2 () [])
           () () _ eq_refl).
Defined.

(** *** repeat on a function that raises, and repeat of repeat *)
Section RepeatMore.
Context {Args St V : Type}.

Lemma repeat_for_raises (func : Args → M St V) (args : Args) (e : exn) (k : nat) :
  ∀ (iterations : list Z) (result : option V) (c : nat) (s s_k s' : St) (results : list V),
    (k < length iterations)%nat →
    call_all func (replicate k args) s = Some (Ret results, s_k) →
    func args s_k = Some (Raise e, s') →
    repeat_for iterations (counted func) args result (c, s)
    = Some (Raise e, ((c + S k)%nat, s')).
Proof.
  induction k as [|k IH]; intros [|i iterations] result c s s_k s' results Hlen Hcalls Hraise;
    simpl in Hlen; try lia.
  - cbn in Hcalls. unfold_M. injection Hcalls as <- <-.
    cbn [repeat_for]. unfold_M. unfold counted at 1. cbn [fst snd].
    rewrite Hraise. do 3 f_equal. lia.
  - cbn [replicate call_all] in Hcalls. unfold_M.
    destruct (func args s) as [[[v|e1] s1]|] eqn:Hfirst; try done.
    destruct (call_all func (replicate k args) s1) as [[[vs|e2] s2]|] eqn:Hrest; try done.
    injection Hcalls as <- <-.
    cbn [repeat_for]. unfold_M. unfold counted at 1. cbn [fst snd]. rewrite Hfirst.
    rewrite (IH iterations (Some v) (S c) s1 s2 s' vs ltac:(lia) Hrest Hraise).
    do 3 f_equal. lia.
Qed.

Lemma successive_calls_add (f : Args → St → V * St) (args : Args) (a b : nat) :
  ∀ s,
    successive_calls (a + b) f args s
    = ((successive_calls a f args s).1
         ++ (successive_calls b f args (successive_calls a f args s).2).1,
       (successive_calls b f args (successive_calls a f args s).2).2).
Proof.
  induction a as [|a IH]; intros s.
  - cbn. by destruct (successive_calls b f args s).
  - cbn [Nat.add successive_calls]. destruct (f args s) as [v s1].
    rewrite IH. destruct (successive_calls a f args s1) as [vs s2]. cbn [fst snd].
    by destruct (successive_calls b f args s2).
Qed.

Lemma repeat_for_returning (func : Args → M St V) (g : Args → St → V * St) (args : Args) :
  (∀ s, func args s = returning g args s) →
  ∀ (iterations : list Z) (result : option V) (s : St),
    repeat_for iterations func args result s
    = Some (Ret (match last (successive_calls (length iterations) g args s).1 with
                 | Some r => Some r
                 | None => result
                 end),
            (successive_calls (length iterations) g args s).2).
Proof.
  intros Hfunc. induction iterations as [|i iterations IH]; intros result s; [done|].
  cbn [repeat_for length successive_calls]. unfold_M. rewrite Hfunc.
  destruct (g args s) as [v s1]. rewrite IH.
  destruct (successive_calls (length iterations) g args s1) as [vs s2].
  cbn [fst snd]. rewrite last_cons. by destruct (last vs).
Qed.

End RepeatMore.

(** X10.  When the wrapped function returns [k] times and raises at the next
    call, with [k < num_times], the wrapper of [repeat(num_times)] raises
    that exception after exactly [k + 1] calls: no call is made after the one
    that raised, and the state is the one that call left. *)
Theorem repeat_stops_at_first_raise
    (Args St V : Type) (num_times : Z) (func : Args → M St V) (args : Args)
    (k c : nat) (s s_k s' : St) (results : list V) (e : exn) :
  Z.of_nat k < num_times →
  call_all func (replicate k args) s = Some (Ret results, s_k) →
  func args s_k = Some (Raise e, s') →
  repeat num_times (counted func) args (c, s) = Some (Raise e, ((c + S k)%nat, s')).
Proof.
  intros Hk Hcalls Hraise. unfold repeat. unfold_M.
  rewrite (repeat_for_raises func args e k (range num_times) None c s s_k s' results);
    [done| |done|done].
  unfold range. rewrite length_seqZ. lia.
Qed.

(** A function that returns its state and raises once the state reaches 2. *)
Lemma repeat_stops_at_first_raise_witness :
  let func : unit → M Z Z :=
    λ _ s, if (s <? 2)%Z then Some (Ret s, (s + 1)%Z) else Some (Raise (ValueError "enough"), s) in
  repeat 5 (counted func) () (0%nat, 0%Z)
  = Some (Raise (ValueError "enough"), (3%nat, 2%Z)).
Proof.
  intros func.
  exact (repeat_stops_at_first_raise unit Z Z 5 func () 2 0 0%Z 2%Z 2%Z [0; 1]%Z
           (ValueError "enough") ltac:(lia) eq_refl eq_refl).
Defined.

Section RepeatOfRepeat.
Context {Args St V : Type}.
Variable f : Args → St → V * St.
Variable args : Args.
Variable n : nat.
Hypothesis n_pos : (0 < n)%nat.

(** What one call of the wrapper of [repeat(n)] does to the state and the
    call counter: [n] calls of [f], returning the last result. *)
Definition n_calls (a : Args) (cs : nat * St) : V * (nat * St) :=
  (List.last (successive_calls n f a cs.2).1 (f a cs.2).1,
   ((cs.1 + n)%nat, (successive_calls n f a cs.2).2)).

Lemma last_Some_default (l : list V) (d : V) :
  l ≠ [] → last l = Some (List.last l d).
Proof.
  induction l as [|x l IH]; [done|]. intros _.
  destruct l as [|y l]; [done|].
  rewrite last_cons, IH by done. reflexivity.
Qed.

Lemma successive_calls_nonempty (k : nat) (s : St) :
  (0 < k)%nat → (successive_calls k f args s).1 ≠ [].
Proof.
  clear n_pos. intros Hk Hnil.
  pose proof (successive_calls_length f args k s) as Hlen.
  rewrite Hnil in Hlen. simpl in Hlen. lia.
Qed.

Lemma repeat_counted_is_n_calls (num_times : Z) (cs : nat * St) :
  Z.to_nat num_times = n →
  repeat num_times (counted (returning f)) args cs = returning n_calls args cs.
Proof.
  intros Hn. destruct cs as [c s]. unfold repeat. unfold mbind, M_bind, bind.
  rewrite (repeat_for_counted f args (range num_times) None c s).
  unfold range. rewrite length_seqZ, Hn.
  rewrite (last_Some_default _ (f args s).1) by by apply successive_calls_nonempty.
  reflexivity.
Qed.

Lemma successive_n_calls (m : nat) :
  ∀ (c : nat) (s : St),
    (successive_calls m n_calls args (c, s)).2
    = ((c + m * n)%nat, (successive_calls (m * n) f args s).2)
    ∧ ((0 < m)%nat →
       last (successive_calls m n_calls args (c, s)).1
       = last (successive_calls (m * n) f args s).1).
Proof.
  induction m as [|m IH]; intros c s.
  - cbn. split; [|lia]. f_equal. lia.
  - destruct (IH (c + n)%nat (successive_calls n f args s).2) as [IHstate IHlast].
    pose proof (successive_calls_length n_calls args m
                  ((c + n)%nat, (successive_calls n f args s).2)) as Hlen.
    replace (S m) with (1 + m)%nat by lia.
    rewrite (successive_calls_add n_calls args 1 m).
    change (successive_calls 1 n_calls args (c, s))
      with ([(n_calls args (c, s)).1], (n_calls args (c, s)).2).
    change (n_calls args (c, s)).2
      with ((c + n)%nat, (successive_calls n f args s).2).
    change (n_calls args (c, s)).1
      with (List.last (successive_calls n f args s).1 (f args s).1).
    cbn [fst snd app].
    replace ((1 + m) * n)%nat with (n + m * n)%nat by lia.
    rewrite successive_calls_add. cbn [fst snd]. split.
    + rewrite IHstate. f_equal. lia.
    + intros _. rewrite last_cons, last_app.
      destruct m as [|m].
      * cbn. by rewrite (last_Some_default _ (f args s).1)
          by by apply successive_calls_nonempty.
      * rewrite <- IHlast by lia.
        destruct (last (successive_calls (S m) n_calls args
                          ((c + n)%nat, (successive_calls n f args s).2)).1)
          as [r|] eqn:Hvs; [done|].
        apply last_None in Hvs. rewrite Hvs in Hlen. done.
Qed.

End RepeatOfRepeat.

(** X11.  Decorators stack: for [m, n >= 1] and a function that returns, the
    wrapper of [repeat(m)] around the wrapper of [repeat(n)] behaves as the
    wrapper of [repeat(m * n)]: the function is called [m * n] times, one
    call after the other, and the result of the last call is returned. *)
Theorem repeat_of_repeat
    (Args St V : Type) (m n : Z) (f : Args → St → V * St) (args : Args)
    (c : nat) (s : St) :
  1 ≤ m → 1 ≤ n →
  repeat m (repeat n (counted (returning f))) args (c, s)
  = repeat (m * n) (counted (returning f)) args (c, s)
  ∧ ∃ r s',
      repeat m (repeat n (counted (returning f))) args (c, s)
      = Some (Ret r, ((c + Z.to_nat m * Z.to_nat n)%nat, s')).
Proof.
  intros Hm Hn.
  assert (0 < Z.to_nat n)%nat as Hn' by lia.
  assert (∀ cs, repeat n (counted (returning f)) args cs
                = returning (n_calls f (Z.to_nat n)) args cs) as Hinner.
  { intros cs. by apply repeat_counted_is_n_calls. }
  destruct (successive_n_calls f args (Z.to_nat n) Hn' (Z.to_nat m) c s) as [Hstate Hlast].
  specialize (Hlast ltac:(lia)).
  assert (repeat m (repeat n (counted (returning f))) args (c, s)
          = match last (successive_calls (Z.to_nat m * Z.to_nat n) f args s).1 with
            | Some r =>
                Some (Ret r, ((c + Z.to_nat m * Z.to_nat n)%nat,
                              (successive_calls (Z.to_nat m * Z.to_nat n) f args s).2))
            | None =>
                Some (Raise (UnboundLocalError
                  "cannot access local variable 'result' where it is not associated with a value"),
                      ((c + Z.to_nat m * Z.to_nat n)%nat,
                       (successive_calls (Z.to_nat m * Z.to_nat n) f args s).2))
            end) as Hleft.
  { unfold repeat at 1. unfold mbind, M_bind, bind.
    rewrite (repeat_for_returning _ _ args Hinner (range m) None (c, s)).
    unfold range. rewrite length_seqZ, Hstate, Hlast.
    by destruct (last (successive_calls (Z.to_nat m * Z.to_nat n) f args s).1). }
  split.
  - rewrite Hleft. unfold repeat. unfold mbind, M_bind, bind.
    rewrite (repeat_for_counted f args (range (m * n)) None c s).
    unfold range. rewrite length_seqZ, Z2Nat.inj_mul by lia.
    by destruct (last (successive_calls (Z.to_nat m * Z.to_nat n) f args s).1).
  - rewrite Hleft.
    rewrite (last_Some_default _ (f args s).1)
      by (apply successive_calls_nonempty; lia).
    by eexists _, _.
Qed.

(** A function that returns its state and adds one to it, under
    [repeat(2)] of [repeat(3)]. *)
Lemma repeat_of_repeat_witness :
  repeat 2 (repeat 3 (counted (returning (λ (_ : unit) (s : Z), (s, s + 1)%Z)))) () (0%nat, 10%Z)
  = repeat (2 * 3) (counted (returning (λ (_ : unit) (s : Z), (s, s + 1)%Z))) () (0%nat, 10%Z).
Proof.
  exact (proj1 (repeat_of_repeat unit Z Z 2 3 (λ _ s, (s, s + 1)%Z) () 0%nat 10%Z
                  ltac:(lia) ltac:(lia))).
Defined.

(** *** cache_results on any sequence of calls *)
Section CacheResultsFacts.
Context {val V : Type} `{Countable val}.

Definition cached_line : string := "Returning cached result".

Lemma cache_results_positional (f : list val → V) (args : list val)
    (cache : gmap (list val) V) (out : list string) :
  cache_agrees f cache →
  cache_results (positional_function f) (Call args []) (cache, out)
  = Some (Ret (f args),
          (<[args := f args]> cache,
           out ++ (if cache !! args is Some _ then [cached_line] else []))).
Proof.
  intros Hagree. unfold cache_results, def.
  rewrite bind_star_args_positional. cbn [star_args]. unfold_M. unfold modify.
  cbn [fst snd].
  destruct (cache !! args) as [v|] eqn:Hlookup.
  - assert (v = f args) as -> by (by apply Hagree).
    cbn [fst snd]. by rewrite insert_id.
  - cbn [fst snd]. by rewrite app_nil_r.
Qed.

Lemma call_all_cache_results (f : list val → V) (calls : list (list val)) :
  ∀ (cache : gmap (list val) V) (out : list string),
    cache_agrees f cache →
    ∃ (cache' : gmap (list val) V) (hits : nat),
      call_all (cache_results (positional_function f))
               ((λ args, Call args []) <$> calls) (cache, out)
      = Some (Ret (f <$> calls), (cache', out ++ replicate hits cached_line))
      ∧ cache_agrees f cache'
      ∧ dom cache' = dom cache ∪ list_to_set calls
      ∧ (hits + size (dom cache') = size (dom cache) + length calls)%nat.
Proof.
  induction calls as [|args calls IH]; intros cache out Hagree.
  - exists cache, 0%nat. cbn. rewrite app_nil_r.
    repeat split; [done| |lia]. set_solver.
  - assert (cache_agrees f (<[args := f args]> cache)) as Hagree1.
    { intros args' v'. rewrite lookup_insert. case_decide; [naive_solver|].
      apply Hagree. }
    destruct (IH (<[args := f args]> cache)
                 (out ++ (if cache !! args is Some _ then [cached_line] else [])) Hagree1)
      as (cache' & hits & Hrest & Hagree' & Hdom & Hsize).
    exists cache', ((if cache !! args is Some _ then 1 else 0) + hits)%nat.
    split; [|split; [done|split]].
    + cbn [call_all fmap list_fmap]. unfold mbind, M_bind, bind.
      rewrite (cache_results_positional f args cache out Hagree).
      rewrite Hrest. rewrite <- app_assoc.
      by destruct (cache !! args).
    + rewrite Hdom, dom_insert_L. set_solver.
    + rewrite dom_insert_L in Hsize. cbn [length].
      destruct (cache !! args) as [v|] eqn:Hlookup.
      * assert ({[args]} ∪ dom cache = dom cache) as Hsame.
        { apply elem_of_dom_2 in Hlookup. set_solver. }
        rewrite Hsame in Hsize. lia.
      * rewrite size_union in Hsize.
        -- rewrite size_singleton in Hsize. lia.
        -- apply not_elem_of_dom in Hlookup. set_solver.
Qed.

End CacheResultsFacts.

(** X12.  For a function [f] of integer positional arguments (tuples of
    integers are keys that the dictionary compares by value), any sequence
    of calls of the wrapper of [cache_results], from the empty cache, returns
    the values of [f]; the cache ends up holding exactly the distinct
    argument tuples called; and the only lines printed are [Returning cached
    result], one for each call whose tuple had been called before (the
    number of calls less the number of distinct tuples). *)
Theorem cache_results_prints_once_per_repeat
    (V : Type) (f : list Z → V) (calls : list (list Z)) :
  ∃ (cache : gmap (list Z) V) (hits : nat),
    call_all (cache_results (positional_function f))
             ((λ args, Call args []) <$> calls) (∅, [])
    = Some (Ret (f <$> calls), (cache, replicate hits cached_line))
    ∧ dom cache = list_to_set calls
    ∧ cache_agrees f cache
    ∧ hits = (length calls - size (list_to_set calls : gset (list Z)))%nat.
Proof.
  destruct (call_all_cache_results f calls ∅ [] (cache_agrees_empty f))
    as (cache & hits & Hcalls & Hagree & Hdom & Hsize).
  exists cache, hits. rewrite dom_empty_L, union_empty_l_L in Hdom.
  rewrite dom_empty_L, size_empty, Hdom in Hsize.
  repeat split; try done. lia.
Qed.

(** *** What memoize leaves in the cache of fibonacci *)

Lemma memoize_hit {val V : Type} `{Countable val}
    (func : call val → M (gmap (list val) V) V) (args : list val)
    (cache : gmap (list val) V) (v : V) :
  cache !! args = Some v →
  memoize func (Call args []) cache = Some (Ret v, cache).
Proof.
  intros Hlookup. unfold memoize, def. rewrite bind_star_args_positional.
  cbn [star_args]. unfold_M. by rewrite Hlookup.
Qed.

Lemma memoize_miss {val V : Type} `{Countable val}
    (func : call val → M (gmap (list val) V) V) (args : list val)
    (cache cache1 : gmap (list val) V) (o : outcome V) :
  cache !! args = None →
  func (Call args []) cache = Some (o, cache1) →
  memoize func (Call args []) cache
  = Some (o, match o with
             | Ret v => <[args := v]> cache1
             | Raise _ => cache1
             end).
Proof.
  intros Hlookup Hfunc. unfold memoize, def. rewrite bind_star_args_positional.
  cbn [star_args]. unfold_M. rewrite Hlookup, Hfunc. by destruct o.
Qed.

(** The cache with the values of [fibonacci] at [0, 1, ..., m]. *)
Fixpoint fibonacci_table (m : nat) : gmap (list Z) Z :=
  match m with
  | O => {[ [0] := 0 ]}
  | S m' => <[ [Z.of_nat m] := fibonacci_plain (Z.of_nat m) ]> (fibonacci_table m')
  end.

Lemma fibonacci_table_lookup (m : nat) (args : list Z) (v : Z) :
  fibonacci_table m !! args = Some v
  ↔ ∃ k, args = [k] ∧ 0 ≤ k ≤ Z.of_nat m ∧ v = fibonacci_plain k.
Proof.
  induction m as [|m IH].
  - cbn [fibonacci_table]. rewrite lookup_singleton_Some. split.
    + intros [<- <-]. exists 0. repeat split; lia.
    + intros (k & -> & Hk & ->). assert (k = 0) as -> by lia. done.
  - cbn [fibonacci_table]. rewrite lookup_insert_Some, IH. split.
    + intros [[<- <-] | (Hne & k & -> & Hk & ->)].
      * exists (Z.of_nat (S m)). repeat split; lia.
      * exists k. repeat split; lia.
    + intros (k & -> & Hk & ->).
      destruct (decide (k = Z.of_nat (S m))) as [-> | Hne]; [by left|].
      right. split; [congruence|]. exists k. repeat split; lia.
Qed.

Lemma fibonacci_def_step (fib : call Z → M (gmap (list Z) Z) Z) (n : Z)
    (cache : gmap (list Z) Z) :
  fibonacci_def fib (Call [n] []) cache
  = if n <? 2 then Some (Ret n, cache)
    else (x ← fib (Call [n - 1] []); y ← fib (Call [n - 2] []); ret (x + y)) cache.
Proof.
  unfold fibonacci_def, def.
  change (bind_arguments (Signature "fibonacci" ["n"] false false) (Call [n] []))
    with (Ret (Bound [("n", n)] [] [])).
  cbn [named]. by destruct (n <? 2).
Qed.

Lemma fibonacci_fills_the_table (m : nat) :
  ∀ fuel : nat,
    (m + 2 < fuel)%nat →
    fibonacci fuel (Call [Z.of_nat (m + 2)] []) ∅
    = Some (Ret (fibonacci_plain (Z.of_nat (m + 2))), fibonacci_table (m + 2)).
Proof.
  induction m as [|m IH]; intros fuel Hfuel.
  - destruct fuel as [|[|[|fuel]]]; try lia.
    change (Z.of_nat (0 + 2)) with 2.
    change (fibonacci (S (S (S fuel))))
      with (memoize (fibonacci_def (memoize (fibonacci_def (fibonacci (S fuel)))))).
    assert (fibonacci_def (memoize (fibonacci_def (fibonacci (S fuel)))) (Call [2] []) ∅
            = Some (Ret 1, <[ [0] := 0 ]> {[ [1] := 1 ]})) as Hbody.
    { rewrite fibonacci_def_step. change (2 <? 2) with false. cbn iota.
      change (2 - 1) with 1. change (2 - 2) with 0.
      unfold mbind, M_bind, bind.
      rewrite (memoize_miss _ [1] ∅ ∅ (Ret 1)); [|done|by rewrite fibonacci_def_step].
      rewrite insert_empty.
      rewrite (memoize_miss _ [0] {[ [1] := 1 ]} {[ [1] := 1 ]} (Ret 0));
        [done|done|by rewrite fibonacci_def_step]. }
    rewrite (memoize_miss _ [2] ∅ _ (Ret 1) (lookup_empty _) Hbody).
    reflexivity.
  - destruct fuel as [|fuel]; [lia|].
    change (fibonacci (S fuel)) with (memoize (fibonacci_def (fibonacci fuel))).
    assert (fibonacci_def (fibonacci fuel) (Call [Z.of_nat (S m + 2)] []) ∅
            = Some (Ret (fibonacci_plain (Z.of_nat (S m + 2))), fibonacci_table (m + 2)))
      as Hbody.
    { rewrite fibonacci_def_step.
      destruct (Z.ltb_spec (Z.of_nat (S m + 2)) 2) as [Hlt|_]; [lia|].
      unfold mbind, M_bind, bind.
      replace (Z.of_nat (S m + 2) - 1) with (Z.of_nat (m + 2)) by lia.
      rewrite (IH fuel) by lia.
      destruct fuel as [|fuel]; [lia|].
      change (fibonacci (S fuel)) with (memoize (fibonacci_def (fibonacci fuel))).
      rewrite (memoize_hit _ [Z.of_nat (S m + 2) - 2] _
                 (fibonacci_plain (Z.of_nat (S m + 2) - 2)));
        [|apply fibonacci_table_lookup; eexists; repeat split; lia].
      unfold ret. do 3 f_equal.
      rewrite (fibonacci_plain_step (Z.of_nat (S m + 2))) by lia.
      by replace (Z.of_nat (S m + 2) - 1) with (Z.of_nat (m + 2)) by lia. }
    by rewrite (memoize_miss _ [Z.of_nat (S m + 2)] ∅ _ _ (lookup_empty _) Hbody).
Qed.

(** X13.  Memoization leaves every subproblem in the cache: the call
    [fibonacci(n)] with [n >= 2], from the empty cache and with fuel above
    [n], returns the value of the recurrence and leaves the cache holding
    exactly the entries [(k,)] to [fibonacci(k)] for [0 <= k <= n].  For
    [n < 2] the function returns [n] itself and the cache holds that entry
    alone. *)
Theorem fibonacci_fills_the_cache (n : Z) (fuel : nat) :
  (Z.to_nat n < fuel)%nat →
  ∃ cache,
    fibonacci fuel (Call [n] []) ∅ = Some (Ret (fibonacci_plain n), cache)
    ∧ (2 ≤ n →
       ∀ args v, cache !! args = Some v
                 ↔ ∃ k, args = [k] ∧ 0 ≤ k ≤ n ∧ v = fibonacci_plain k)
    ∧ (n < 2 → fibonacci_plain n = n ∧ cache = {[ [n] := n ]}).
Proof.
  intros Hfuel. destruct (Z.ltb_spec n 2) as [Hlt|Hge].
  - exists {[ [n] := n ]}. destruct fuel as [|fuel]; [lia|]. cbn [fibonacci].
    rewrite fibonacci_plain_base by done.
    split; [|split; [lia|done]].
    rewrite (memoize_miss _ [n] ∅ ∅ (Ret n) (lookup_empty _)).
    + by rewrite insert_empty.
    + rewrite fibonacci_def_step. by destruct (Z.ltb_spec n 2); [|lia].
  - exists (fibonacci_table (Z.to_nat n)).
    pose proof (fibonacci_fills_the_table (Z.to_nat n - 2) fuel ltac:(lia)) as Hfill.
    replace (Z.to_nat n - 2 + 2)%nat with (Z.to_nat n) in Hfill by lia.
    rewrite Z2Nat.id in Hfill by lia.
    split; [done|]. split; [|lia].
    intros _ args v. rewrite fibonacci_table_lookup. by rewrite Z2Nat.id by lia.
Qed.

Lemma fibonacci_fills_the_cache_witness :
  ∃ cache,
    fibonacci 11 (Call [10] []) ∅ = Some (Ret 55, cache)
    ∧ (2 ≤ 10 →
       ∀ args v, cache !! args = Some v
                 ↔ ∃ k, args = [k] ∧ 0 ≤ k ≤ 10 ∧ v = fibonacci_plain k)
    ∧ (10 < 2 → fibonacci_plain 10 = 10 ∧ cache = {[ [10] := 10 ]}).
Proof. exact (fibonacci_fills_the_cache 10 11 ltac:(simpl; lia)). Defined.

(** *** requires_auth *)

(** The truth value in an [if] of a value of the four kinds. *)
Definition truthy (v : value) : bool :=
  match v with
  | VNone => false
  | VBool b => b
  | VInt n => negb (n =? 0)
  | VStr s => negb (bool_decide (s = EmptyString))
  end.

(** The wrapper tests the truth value of whatever is passed under the
    keyword: the values are of any type [val], [none] is the object [None]
    and [truth v] is the truth value of [v] in an [if], for the values whose
    truth test returns (every built-in value: an empty container and [0.0]
    are false as [None], [False], [0] and the empty string are). *)
Section RequiresAuth.
Context {val : Type}.
Variable none : val.
Variable truth : val → bool.

(** [kwargs.get(key)]: the value passed under the keyword, [None] when the
    keyword was not passed. *)
Fixpoint kwargs_get (key : string) (kwargs : list (string * val)) : val :=
  match kwargs with
  | [] => none
  | (k, v) :: rest => if bool_decide (k = key) then v else kwargs_get key rest
  end.

(** [def wrapper( *args, **kwargs )] of [requires_auth]: every call binds,
    and the arguments are passed on as they came.  The result is the message
    of the [Exception] raised before anything else runs, or else what the
    call of [func] does. *)
Definition requires_auth {St V} (func : call val → M St V)
  : call val → St → string + option (outcome V * St) :=
  λ c s,
    if negb (truth (kwargs_get "user_authenticated" (keywords c))) then
      inl "Authentication required"
    else inr (func c s).

Lemma kwargs_get_absent (key : string) (kwargs : list (string * val)) :
  key ∉ kwargs.*1 → kwargs_get key kwargs = none.
Proof.
  induction kwargs as [|[k v] kws IH]; [done|].
  cbn [fmap list_fmap fst kwargs_get]. rewrite not_elem_of_cons.
  intros [Hne Hrest]. rewrite bool_decide_eq_false_2 by done. by apply IH.
Qed.

Lemma kwargs_get_passed (key : string) (before after : list (string * val)) (v : val) :
  key ∉ before.*1 → kwargs_get key (before ++ (key, v) :: after) = v.
Proof.
  induction before as [|[k w] before IH]; cbn [app fmap list_fmap fst kwargs_get].
  - intros _. by rewrite bool_decide_eq_true_2.
  - rewrite not_elem_of_cons. intros [Hne Hrest].
    rewrite bool_decide_eq_false_2 by done. by apply IH.
Qed.

Lemma kwargs_passed (key : string) (kwargs : list (string * val)) :
  key ∈ kwargs.*1 →
  ∃ before v after, kwargs = before ++ (key, v) :: after ∧ key ∉ before.*1.
Proof.
  induction kwargs as [|[k w] kws IH]; cbn [fmap list_fmap fst].
  - by intros ?%elem_of_nil.
  - destruct (decide (k = key)) as [->|Hne].
    + intros _. exists [], w, kws. split; [done|]. apply not_elem_of_nil.
    + rewrite elem_of_cons. intros [?|Hin]; [congruence|].
      destruct (IH Hin) as (before & v & after & -> & Hnot).
      exists ((k, w) :: before), v, after. split; [done|].
      cbn [fmap list_fmap fst]. rewrite not_elem_of_cons. split; [congruence|done].
Qed.

End RequiresAuth.

Lemma truthy_false (v : value) :
  truthy v = false ↔ v = VNone ∨ v = VBool false ∨ v = VInt 0 ∨ v = VStr "".
Proof.
  split.
  - destruct v as [|[]|n|str]; cbn [truthy]; intros Ht; try discriminate; auto.
    + right; right; left. f_equal. by destruct (Z.eqb_spec n 0).
    + right; right; right. f_equal. by case_bool_decide.
  - intros [-> | [-> | [-> | ->]]]; reflexivity.
Qed.

(** X14.  [None] being false, the wrapper of [requires_auth] raises
    [Exception], with the message [Authentication required] and without
    calling the function, exactly when the keyword [user_authenticated] is
    not passed or the value passed under it is false in an [if] (of whatever
    type the value is); a positional argument never authenticates.  In every
    other case the call is the call of the function on the same arguments. *)
Theorem requires_auth_needs_a_true_keyword
    (val St V : Type) (none : val) (truth : val → bool)
    (func : call val → M St V) (c : call val) (s : St) :
  truth none = false →
  (requires_auth none truth func c s = inl "Authentication required"
   ↔ ("user_authenticated" ∉ (keywords c).*1
      ∨ ∃ before v after,
          keywords c = before ++ ("user_authenticated", v) :: after
          ∧ ("user_authenticated" ∉ before.*1)
          ∧ truth v = false))
  ∧ (requires_auth none truth func c s ≠ inl "Authentication required" →
     requires_auth none truth func c s = inr (func c s))
  ∧ (keywords c = [] → requires_auth none truth func c s = inl "Authentication required").
Proof.
  intros Hnone. unfold requires_auth. split; [|split].
  - destruct (decide ("user_authenticated" ∈ (keywords c).*1)) as [Hin|Hnot].
    + destruct (kwargs_passed "user_authenticated" (keywords c) Hin)
        as (before & v & after & Hkw & Hbefore).
      rewrite Hkw, (kwargs_get_passed none _ before after v Hbefore).
      destruct (truth v) eqn:Hv; cbn [negb].
      * split; [done|]. intros [Habsent | (before' & v' & after' & Hkw' & Hbefore' & Hv')].
        -- exfalso. apply Habsent. rewrite fmap_app, elem_of_app. right. left.
        -- assert (v' = v) as ->; [|congruence].
           rewrite <- (kwargs_get_passed none "user_authenticated" before' after' v' Hbefore').
           rewrite <- Hkw'. by apply kwargs_get_passed.
      * split; [|done]. intros _. right. by exists before, v, after.
    + rewrite (kwargs_get_absent none _ _ Hnot), Hnone. cbn [negb].
      split; [by left|done].
  - by destruct (truth (kwargs_get _ _ _)).
  - intros ->. cbn [kwargs_get]. by rewrite Hnone.
Qed.

(** The cell's call [sensitive_function(user_authenticated=True)], the same
    call with the flag given positionally, and the call with the flag 0. *)
Lemma requires_auth_needs_a_true_keyword_witness :
  let sensitive_function : call value → M (list string) value :=
    λ _ out, Some (Ret VNone, out ++ ["Access granted to sensitive data"]) in
  requires_auth VNone truthy sensitive_function
    (Call [] [("user_authenticated", VBool true)]) []
  = inr (Some (Ret VNone, ["Access granted to sensitive data"]))
  ∧ requires_auth VNone truthy sensitive_function (Call [VBool true] []) []
    = inl "Authentication required"
  ∧ requires_auth VNone truthy sensitive_function
      (Call [] [("user_authenticated", VInt 0)]) []
    = inl "Authentication required".
Proof.
  intros sensitive_function. split; [|split].
  - apply (proj1 (proj2 (requires_auth_needs_a_true_keyword value (list string) value
             VNone truthy sensitive_function
             (Call [] [("user_authenticated", VBool true)]) [] eq_refl))).
    discriminate.
  - exact (proj2 (proj2 (requires_auth_needs_a_true_keyword value (list string) value
             VNone truthy sensitive_function (Call [VBool true] []) [] eq_refl)) eq_refl).
  - apply (proj2 (proj1 (requires_auth_needs_a_true_keyword value (list string) value
             VNone truthy sensitive_function
             (Call [] [("user_authenticated", VInt 0)]) [] eq_refl))).
    right. exists [], (VInt 0), []. split; [done|]. split; [apply not_elem_of_nil|].
    apply truthy_false. auto.
Defined.

(** *** on_event and the handlers of an event *)
Section Events.
Context {H : Type}.

(** [on_event(event_name)(func)]: the decorator appends [func] to the list of
    the event, which it creates when the event has none, and returns [func]
    itself. *)
Definition on_event (event_name : string) (func : H) (event_handlers : gmap string (list H))
  : H * gmap string (list H) :=
  let event_handlers :=
    if bool_decide (event_name ∉ dom event_handlers) then
      <[event_name := []]> event_handlers
    else event_handlers in
  (func, alter (λ handlers, handlers ++ [func]) event_name event_handlers).

(** The decorations of a module, in the order they run. *)
Fixpoint register_all (decorations : list (string * H)) (event_handlers : gmap string (list H))
  : gmap string (list H) :=
  match decorations with
  | [] => event_handlers
  | (event_name, func) :: rest =>
      register_all rest (on_event event_name func event_handlers).2
  end.

(** The functions decorated for an event, in decoration order. *)
Definition decorated_for (event_name : string) (decorations : list (string * H)) : list H :=
  (filter (λ d, d.1 = event_name) decorations).*2.

Lemma on_event_lookup (event_name name : string) (func : H)
    (event_handlers : gmap string (list H)) :
  (on_event event_name func event_handlers).2 !! name
  = if decide (event_name = name)
    then Some (default [] (event_handlers !! name) ++ [func])
    else event_handlers !! name.
Proof.
  unfold on_event. cbn [snd]. case_decide as Hname.
  - subst name. rewrite lookup_alter_eq. case_bool_decide as Hin.
    + apply not_elem_of_dom in Hin. by rewrite lookup_insert_eq, Hin.
    + destruct (event_handlers !! event_name) as [handlers|] eqn:Hl; [done|].
      apply not_elem_of_dom in Hl. contradiction.
  - rewrite lookup_alter_ne by done. case_bool_decide; [|done].
    by rewrite lookup_insert_ne.
Qed.

Lemma register_all_lookup (decorations : list (string * H)) (name : string) :
  ∀ event_handlers : gmap string (list H),
    register_all decorations event_handlers !! name
    = match event_handlers !! name, decorated_for name decorations with
      | None, [] => None
      | o, funcs => Some (default [] o ++ funcs)
      end.
Proof.
  induction decorations as [|[event_name func] rest IH]; intros event_handlers.
  - cbn. destruct (event_handlers !! name); [|done]. by rewrite app_nil_r.
  - cbn [register_all]. rewrite IH, on_event_lookup.
    unfold decorated_for. rewrite filter_cons. cbn [fst].
    case_decide as Hname.
    + destruct (event_handlers !! name); simpl; by rewrite <- ?app_assoc.
    + done.
Qed.

End Events.

(** Triggering an event: [for func in event_handlers[event_name]: func()]. *)
Definition trigger {St} (event_name : string) (event_handlers : gmap string (list (M St unit)))
  : M St unit :=
  match event_handlers !! event_name with
  | None => raise (KeyError event_name)
  | Some handlers => foldr (λ func rest, func;; rest) (ret ()) handlers
  end.

(** X15.  After any sequence of [@on_event] decorations, from an empty
    registry, the handlers of an event are the functions decorated for it,
    in decoration order (a function decorated twice is there twice), and
    decorations for other events do not change them; each decoration returns
    its function as it is.  Triggering an event for which nothing was
    decorated raises [KeyError] and runs nothing. *)
Theorem on_event_registers_in_order
    (H : Type) (decorations : list (string * H)) (event_name : string) :
  register_all decorations ∅ !! event_name
  = (if decide (decorated_for event_name decorations = []) then None
     else Some (decorated_for event_name decorations))
  ∧ (∀ (func : H) (event_handlers : gmap string (list H)),
       (on_event event_name func event_handlers).1 = func)
  ∧ (∀ (St : Type) (decorations : list (string * M St unit)) (s : St),
       decorated_for event_name decorations = [] →
       trigger event_name (register_all decorations ∅) s
       = Some (Raise (KeyError event_name), s)).
Proof.
  split; [|split].
  - rewrite register_all_lookup, lookup_empty.
    by destruct (decorated_for event_name decorations).
  - done.
  - intros St decs s Hnone. unfold trigger.
    by rewrite register_all_lookup, lookup_empty, Hnone.
Qed.

End Decorators.

(** * Design Patterns and SOLID Principles.ipynb *)
Module Patterns.

(** ** SingletonMeta and Logger *)

(** An object is a reference into the heap, which records the class of each
    object created through the metaclass; [_instances] is the class
    attribute of [SingletonMeta], a dictionary from classes to objects. *)
Record interpreter := {
  heap : list string;
  _instances : gmap string nat
}.

Definition initial : interpreter := {| heap := []; _instances := ∅ |}.

(** [type.__call__(cls)], reached as [super().__call__( *args, **kwargs )]:
    a new object of class [cls]. *)
Definition type__call__ (cls : string) (st : interpreter) : nat * interpreter :=
  (length (heap st), {| heap := heap st ++ [cls]; _instances := _instances st |}).

Definition SingletonMeta__call__ (cls : string) (st : interpreter)
  : outcome nat * interpreter :=
  let st :=
    if bool_decide (cls ∉ dom (_instances st)) then
      let '(instance, st) := type__call__ cls st in
      {| heap := heap st; _instances := <[cls := instance]> (_instances st) |}
    else st in
  match _instances st !! cls with
  | Some instance => (Ret instance, st)
  | None => (Raise (KeyError cls), st)
  end.

Definition Logger : string := "Logger".

(** Instantiations of classes of the metaclass, one after the other. *)
Fixpoint instantiate_all (classes : list string) (st : interpreter) : interpreter :=
  match classes with
  | [] => st
  | cls :: rest => instantiate_all rest (SingletonMeta__call__ cls st).2
  end.

(** The stored instance of a class is an object of that class, and every
    object of a class is the stored instance of it: no class has two
    instances. *)
Definition singleton_inv (st : interpreter) : Prop :=
  (∀ cls r, _instances st !! cls = Some r → heap st !! r = Some cls)
  ∧ (∀ r cls, heap st !! r = Some cls → _instances st !! cls = Some r).

(** ** Subject and its observers *)

(** The base class [Observer] declares [update], which every concrete
    observer implements; an update acts on the world [W] (the standard
    output, for the observers of the notebook).  This is the interface of
    the observers whose [update] returns; [RaisingObserver] below is the one
    of any object attached to a subject, whose [update] may raise. *)
Class Observer (O W : Type) := update : O → string → W → W.

Section Subject.
Context {O : Type}.

Record Subject := { _observers : list O }.

Definition Subject__init__ : Subject := {| _observers := [] |}.

Definition attach (self : Subject) (observer : O) : Subject :=
  {| _observers := _observers self ++ [observer] |}.

(** [for observer in self._observers: observer.update(message)] *)
Fixpoint notify_loop {W} `{!Observer O W} (observers : list O) (message : string) (w : W) : W :=
  match observers with
  | [] => w
  | observer :: rest => notify_loop rest message (update observer message w)
  end.

Definition notify {W} `{!Observer O W} (self : Subject) (message : string) (w : W)
  : Subject * W :=
  (self, notify_loop (_observers self) message w).

End Subject.
Arguments Subject : clear implicits.

(** The two concrete observers of the notebook print a line each. *)
Inductive concrete_observer :=
| ConcreteObserverA
| ConcreteObserverB.

#[export] Instance concrete_observer_update : Observer concrete_observer (list string) :=
  λ observer message stdout,
    match observer with
    | ConcreteObserverA => stdout ++ ["ConcreteObserverA received: " +:+ message]
    | ConcreteObserverB => stdout ++ ["ConcreteObserverB received: " +:+ message]
    end.

(** *** An observer that does not implement update *)

(** An object attached to a subject: an instance of a concrete observer, or
    of the base class [Observer], whose [update] raises. *)
Inductive attached :=
| Abstract
| Concrete (observer : concrete_observer).

Inductive notified :=
| Notified
| NotImplementedError (msg : string).

(** [notify] on a list that may hold instances of the base class: the loop
    ends at the first [update] that raises. *)
Fixpoint notify_attached (observers : list attached) (message : string)
    (stdout : list string) : notified * list string :=
  match observers with
  | [] => (Notified, stdout)
  | Abstract :: _ =>
      (NotImplementedError "Subclasses must implement this method", stdout)
  | Concrete observer :: rest =>
      notify_attached rest message (update observer message stdout)
  end.

(** *** Updates that raise

    An object attached to a subject may be of any class, and its [update]
    may raise, as the base class's does: [update_or_raise observer message w]
    is the exception the call raised, [None] when it returned, and the world
    it left.  (The world does not hold the subject's own list: no observer of
    the notebook keeps a reference to its subject.) *)
Class RaisingObserver (O W E : Type) :=
  update_or_raise : O → string → W → option E * W.

Section SubjectRaising.
Context {O W E : Type} {observing : RaisingObserver O W E}.

(** [for observer in self._observers: observer.update(message)]: an
    exception leaves the loop, and [notify]. *)
Fixpoint notify_loop_raising (observers : list O) (message : string) (w : W)
  : option E * W :=
  match observers with
  | [] => (None, w)
  | observer :: rest =>
      match update_or_raise observer message w with
      | (None, w') => notify_loop_raising rest message w'
      | (Some e, w') => (Some e, w')
      end
  end.

Definition notify_raising (self : Subject O) (message : string) (w : W)
  : option E * (Subject O * W) :=
  let '(raised, w') := notify_loop_raising (_observers self) message w in
  (raised, (self, w')).

End SubjectRaising.

(** Observers whose [update] returns. *)
Definition returning_observer {O W E : Type} `{!Observer O W} : RaisingObserver O W E :=
  λ observer message w, (None, update observer message w).

(** The observers that record the calls of [update] they receive, the call
    that raises included; [raises observer] is what its [update] raises. *)
Definition recording_raising {O E : Type} (raises : O → option E)
  : RaisingObserver O (list (O * string)) E :=
  λ observer message calls, (raises observer, calls ++ [(observer, message)]).

(** The objects of the notebook's classes. *)
Definition raises_attached (observer : attached) : option string :=
  match observer with
  | Abstract => Some "Subclasses must implement this method"
  | Concrete _ => None
  end.

#[export] Instance attached_update : RaisingObserver attached (list string) string :=
  λ observer message stdout,
    match observer with
    | Abstract => (raises_attached Abstract, stdout)
    | Concrete observer => (None, update observer message stdout)
    end.

(** *** The singleton *)

Lemma singleton_inv_initial : singleton_inv initial.
Proof. split; intros ??; simpl; [rewrite lookup_empty | rewrite lookup_nil]; done. Qed.

Lemma SingletonMeta__call__stored (cls : string) (st : interpreter) (r : nat) :
  _instances st !! cls = Some r →
  SingletonMeta__call__ cls st = (Ret r, st).
Proof.
  intros Hstored. unfold SingletonMeta__call__.
  rewrite bool_decide_eq_false_2.
  - by rewrite Hstored.
  - intros Hnot. apply Hnot, elem_of_dom. eauto.
Qed.

Lemma SingletonMeta__call__fresh (cls : string) (st : interpreter) :
  _instances st !! cls = None →
  SingletonMeta__call__ cls st
  = (Ret (length (heap st)),
     {| heap := heap st ++ [cls];
        _instances := <[cls := length (heap st)]> (_instances st) |}).
Proof.
  intros Habsent. unfold SingletonMeta__call__.
  rewrite bool_decide_eq_true_2 by (by apply not_elem_of_dom).
  cbn. by rewrite lookup_insert_eq.
Qed.

Lemma SingletonMeta__call__returns (cls : string) (st : interpreter) :
  ∃ r st',
    SingletonMeta__call__ cls st = (Ret r, st')
    ∧ _instances st' !! cls = Some r
    ∧ (∀ c r0, _instances st !! c = Some r0 → _instances st' !! c = Some r0).
Proof.
  destruct (_instances st !! cls) as [r|] eqn:Hcls.
  - exists r, st. by rewrite (SingletonMeta__call__stored _ _ _ Hcls).
  - eexists _, _. rewrite (SingletonMeta__call__fresh _ _ Hcls).
    split; [reflexivity|]. cbn [_instances].
    split; [by rewrite lookup_insert_eq|].
    intros c r0 Hr0. rewrite lookup_insert_ne; [done|]. intros <-. congruence.
Qed.

Lemma SingletonMeta__call__inv (cls : string) (st : interpreter) :
  singleton_inv st → singleton_inv (SingletonMeta__call__ cls st).2.
Proof.
  intros [Hstored Hobjects].
  destruct (_instances st !! cls) as [r|] eqn:Hcls.
  - by rewrite (SingletonMeta__call__stored _ _ _ Hcls).
  - rewrite (SingletonMeta__call__fresh _ _ Hcls).
    unfold singleton_inv. cbn [snd heap _instances]. split.
    + intros c r0. rewrite lookup_insert. case_decide as Hc.
      * intros [= <-]. subst c. by rewrite lookup_app_r, Nat.sub_diag.
      * intros Hr0. rewrite lookup_app_l; [by apply Hstored|].
        apply Hstored in Hr0. by apply lookup_lt_Some in Hr0.
    + intros r0 c Hr0.
      destruct (decide (r0 < length (heap st))) as [Hlt|Hge].
      * rewrite lookup_app_l in Hr0 by done. apply Hobjects in Hr0.
        rewrite lookup_insert_ne; [done|]. intros <-. congruence.
      * rewrite lookup_app_r in Hr0 by lia.
        destruct (r0 - length (heap st)) as [|k] eqn:Hk; [|by destruct k].
        injection Hr0 as <-. rewrite lookup_insert_eq. f_equal. lia.
Qed.

Lemma instantiate_all_keeps (classes : list string) :
  ∀ st c r0,
    _instances st !! c = Some r0 →
    _instances (instantiate_all classes st) !! c = Some r0.
Proof.
  induction classes as [|cls rest IH]; intros st c r0 Hr0; [done|].
  cbn [instantiate_all]. apply IH.
  destruct (SingletonMeta__call__returns cls st) as (r & st' & -> & _ & Hkeep).
  by apply Hkeep.
Qed.

Lemma instantiate_all_inv (classes : list string) :
  ∀ st, singleton_inv st → singleton_inv (instantiate_all classes st).
Proof.
  induction classes as [|cls rest IH]; intros st Hinv; [done|].
  cbn [instantiate_all]. by apply IH, SingletonMeta__call__inv.
Qed.

(** C4.  A call for a class that has a stored instance returns that
    instance and changes nothing: no object is created.  A call for a class
    that has none creates one object of the class (the next reference of the
    heap), stores it under the class and returns it.  So two instantiations
    of a class of the metaclass (such as [Logger]), in any state and with any
    instantiations in between, both return, and return the same object, the
    one stored for the class.  That no class has two instances holds at the
    start and is preserved by every instantiation; it says that two objects
    of one class are the same object. *)
Theorem Logger_is_a_singleton :
  (∀ (cls : string) (st : interpreter) (instance : nat),
     _instances st !! cls = Some instance →
     SingletonMeta__call__ cls st = (Ret instance, st))
  ∧ (∀ (cls : string) (st : interpreter),
       _instances st !! cls = None →
       SingletonMeta__call__ cls st
       = (Ret (length (heap st)),
          {| heap := heap st ++ [cls];
             _instances := <[cls := length (heap st)]> (_instances st) |}))
  ∧ (∀ (cls : string) (between : list string) (st : interpreter),
       ∃ logger st1 st3,
         SingletonMeta__call__ cls st = (Ret logger, st1)
         ∧ SingletonMeta__call__ cls (instantiate_all between st1) = (Ret logger, st3)
         ∧ _instances st1 !! cls = Some logger
         ∧ st3 = instantiate_all between st1
         ∧ _instances st3 !! cls = Some logger)
  ∧ singleton_inv initial
  ∧ (∀ (cls : string) (st : interpreter),
       singleton_inv st → singleton_inv (SingletonMeta__call__ cls st).2)
  ∧ (∀ st : interpreter,
       singleton_inv st →
       ∀ c r r', heap st !! r = Some c → heap st !! r' = Some c → r = r').
Proof.
  split; [|split; [|split; [|split; [|split]]]].
  - apply SingletonMeta__call__stored.
  - apply SingletonMeta__call__fresh.
  - intros cls between st.
    destruct (SingletonMeta__call__returns cls st) as (r1 & st1 & Hcall1 & Hr1 & _).
    pose proof (instantiate_all_keeps between _ _ _ Hr1) as Hr2.
    exists r1, st1, (instantiate_all between st1).
    by rewrite (SingletonMeta__call__stored _ _ _ Hr2).
  - apply singleton_inv_initial.
  - apply SingletonMeta__call__inv.
  - intros st [_ Hobjects] c r r' Hr Hr'.
    apply Hobjects in Hr, Hr'. congruence.
Qed.

(** The cell: [logger1 = Logger(); logger2 = Logger()] from the start: the
    first call creates object 0, the second returns it and creates nothing. *)
Lemma Logger_is_a_singleton_witness :
  SingletonMeta__call__ Logger initial
  = (Ret 0%nat, {| heap := [Logger]; _instances := <[Logger := 0%nat]> ∅ |})
  ∧ SingletonMeta__call__ Logger {| heap := [Logger]; _instances := <[Logger := 0%nat]> ∅ |}
    = (Ret 0%nat, {| heap := [Logger]; _instances := <[Logger := 0%nat]> ∅ |})
  ∧ (∀ c r r',
       heap (instantiate_all [Logger; Logger] initial) !! r = Some c →
       heap (instantiate_all [Logger; Logger] initial) !! r' = Some c → r = r').
Proof.
  destruct Logger_is_a_singleton as (Hstored & Hfresh & _ & Hinitial & _ & Hunique).
  split; [|split].
  - exact (Hfresh Logger initial (lookup_empty _)).
  - exact (Hstored Logger {| heap := [Logger]; _instances := <[Logger := 0%nat]> ∅ |}
             0%nat (lookup_insert_eq _ _ _)).
  - apply Hunique. apply instantiate_all_inv, Hinitial.
Defined.

(** *** The observers *)

Lemma notify_loop_foldl {O W} `{!Observer O W} (observers : list O) (message : string) :
  ∀ w : W,
    notify_loop observers message w
    = foldl (λ w observer, update observer message w) w observers.
Proof. induction observers as [|o rest IH]; intros w; [done|]. apply IH. Qed.

Section RaisingFacts.
Context {O W E : Type} {observing : RaisingObserver O W E}.

Lemma notify_loop_raising_app (before rest : list O) (message : string) :
  ∀ w : W,
    (∀ o w', o ∈ before → (update_or_raise o message w').1 = None) →
    notify_loop_raising (before ++ rest) message w
    = notify_loop_raising rest message
        (foldl (λ w o, (update_or_raise o message w).2) w before).
Proof.
  induction before as [|o before IH]; intros w Hreturn; [done|].
  cbn [app notify_loop_raising foldl].
  pose proof (Hreturn o w ltac:(left)) as Ho.
  destruct (update_or_raise o message w) as [[e|] w1]; [done|]. cbn [snd].
  apply IH. intros o' w' Hin. apply Hreturn. by right.
Qed.

Lemma notify_loop_raising_returns (observers : list O) (message : string) (w : W) :
  (∀ o w', o ∈ observers → (update_or_raise o message w').1 = None) →
  notify_loop_raising observers message w
  = (None, foldl (λ w o, (update_or_raise o message w).2) w observers).
Proof.
  intros Hreturn.
  rewrite <- (app_nil_r observers) at 1. by rewrite notify_loop_raising_app.
Qed.

Lemma notify_loop_raising_raises (before after : list O) (o : O) (e : E)
    (message : string) (w : W) :
  (∀ o' w', o' ∈ before → (update_or_raise o' message w').1 = None) →
  (update_or_raise o message
     (foldl (λ w o, (update_or_raise o message w).2) w before)).1 = Some e →
  notify_loop_raising (before ++ o :: after) message w
  = (Some e,
     (update_or_raise o message
        (foldl (λ w o, (update_or_raise o message w).2) w before)).2).
Proof.
  intros Hreturn Hraise. rewrite notify_loop_raising_app by done.
  cbn [notify_loop_raising].
  destruct (update_or_raise o message _) as [[e'|] w1]; cbn [fst snd] in *; by simplify_eq.
Qed.

End RaisingFacts.

Section RecordingFacts.
Context {O E : Type}.
Variable raises : O → option E.

Lemma update_recording_raising (o : O) (message : string) (calls : list (O * string)) :
  update_or_raise (RaisingObserver:=recording_raising raises) o message calls
  = (raises o, calls ++ [(o, message)]).
Proof. reflexivity. Qed.

Lemma foldl_recording_raising (observers : list O) (message : string) :
  ∀ calls : list (O * string),
    foldl (λ w o, (update_or_raise (RaisingObserver:=recording_raising raises) o message w).2)
          calls observers
    = calls ++ ((λ o, (o, message)) <$> observers).
Proof.
  induction observers as [|o rest IH]; intros calls.
  - by rewrite app_nil_r.
  - cbn [foldl fmap list_fmap]. rewrite IH.
    unfold update_or_raise, recording_raising. cbn [snd]. by rewrite <- app_assoc.
Qed.

Lemma recording_raising_returns (observers : list O) (message : string) :
  Forall (λ o, raises o = None) observers →
  ∀ o (calls : list (O * string)),
    o ∈ observers →
    (update_or_raise (RaisingObserver:=recording_raising raises) o message calls).1 = None.
Proof. intros Hreturn o calls Hin. by apply (proj1 (Forall_forall _ _) Hreturn). Qed.

Lemma notify_loop_recording_returns (observers : list O) (message : string)
    (calls : list (O * string)) :
  Forall (λ o, raises o = None) observers →
  notify_loop_raising (observing:=recording_raising raises) observers message calls
  = (None, calls ++ ((λ o, (o, message)) <$> observers)).
Proof.
  intros Hreturn. rewrite notify_loop_raising_returns.
  - by rewrite foldl_recording_raising.
  - by apply recording_raising_returns.
Qed.

Lemma notify_loop_recording_raises (before after : list O) (o : O) (e : E)
    (message : string) (calls : list (O * string)) :
  Forall (λ o, raises o = None) before → raises o = Some e →
  notify_loop_raising (observing:=recording_raising raises) (before ++ o :: after)
    message calls
  = (Some e, calls ++ ((λ o, (o, message)) <$> before ++ [o])).
Proof.
  intros Hreturn Hraise.
  rewrite (notify_loop_raising_raises before after o e).
  - rewrite foldl_recording_raising. unfold update_or_raise, recording_raising.
    cbn [snd]. by rewrite fmap_app, app_assoc.
  - by apply recording_raising_returns.
  - done.
Qed.

Lemma notify_loop_recording_app (l1 l2 : list O) (message : string)
    (calls : list (O * string)) :
  Forall (λ o, raises o = None) l1 →
  notify_loop_raising (observing:=recording_raising raises) (l1 ++ l2) message calls
  = notify_loop_raising (observing:=recording_raising raises) l2 message
      (calls ++ ((λ o, (o, message)) <$> l1)).
Proof.
  intros Hreturn. rewrite notify_loop_raising_app.
  - by rewrite foldl_recording_raising.
  - by apply recording_raising_returns.
Qed.

Lemma notify_loop_recording_calls (observers : list O) (message : string) :
  ∀ calls : list (O * string),
    notify_loop_raising (observing:=recording_raising raises) observers message calls
    = ((notify_loop_raising (observing:=recording_raising raises) observers message []).1,
       calls
         ++ (notify_loop_raising (observing:=recording_raising raises) observers message []).2).
Proof.
  induction observers as [|o rest IH]; intros calls.
  - cbn. by rewrite app_nil_r.
  - cbn [notify_loop_raising]. rewrite !update_recording_raising.
    destruct (raises o) as [e|].
    + done.
    + rewrite (IH (calls ++ [(o, message)])), (IH ([] ++ [(o, message)])).
      cbn [fst snd app]. by rewrite <- app_assoc.
Qed.

End RecordingFacts.

Lemma notify_attached_raising (observers : list attached) (message : string) :
  ∀ stdout : list string,
    notify_attached observers message stdout
    = match notify_loop_raising observers message stdout with
      | (None, out) => (Notified, out)
      | (Some msg, out) => (NotImplementedError msg, out)
      end.
Proof.
  induction observers as [|[|observer] rest IH]; intros stdout; [done|done|].
  cbn [notify_attached notify_loop_raising]. apply IH.
Qed.




(** The cell's usage: both observers attached, then one notification. *)
Example notify_hello_observers :
  let subject := Subject__init__ in
  let subject := attach subject ConcreteObserverA in
  let subject := attach subject ConcreteObserverB in
  (notify subject "Hello, Observers!" []).2
  = ["ConcreteObserverA received: Hello, Observers!";
     "ConcreteObserverB received: Hello, Observers!"].
Proof. reflexivity. Qed.

(** ** More of the notebook's patterns *)

#[local] Set Warnings "-clear-no-such-hyp".

(** *** Subject.detach *)
Section Detach.
Context {O : Type} `{EqDecision O}.

(** [l.remove(x)]: the list without its first element equal to [x];
    [None] when there is none, where Python raises [ValueError]. *)
Fixpoint list_remove (x : O) (l : list O) : option (list O) :=
  match l with
  | [] => None
  | y :: rest =>
      if decide (y = x) then Some rest
      else cons y <$> list_remove x rest
  end.

Definition detach (self : Subject O) (observer : O) : outcome unit * Subject O :=
  match list_remove observer (_observers self) with
  | Some observers => (Ret (), {| _observers := observers |})
  | None => (Raise (ValueError "list.remove(x): x not in list"), self)
  end.

Lemma list_remove_None (x : O) (l : list O) :
  list_remove x l = None ↔ x ∉ l.
Proof.
  induction l as [|y rest IH]; cbn [list_remove].
  - split; [intros _; apply not_elem_of_nil|done].
  - rewrite not_elem_of_cons. case_decide as Hy.
    + split; [done|]. intros [Hne _]. congruence.
    + rewrite fmap_None, IH. naive_solver.
Qed.

Lemma list_remove_Some (x : O) (l l' : list O) :
  list_remove x l = Some l'
  ↔ (∃ l1 l2, l = l1 ++ x :: l2 ∧ (x ∉ l1) ∧ l' = l1 ++ l2).
Proof.
  revert l'. induction l as [|y rest IH]; intros l'; cbn [list_remove].
  - split; [done|]. intros (l1 & l2 & Hl & _). by destruct l1.
  - case_decide as Hy.
    + subst y. split.
      * intros [= <-]. exists [], rest.
        split; [done|]. split; [apply not_elem_of_nil|done].
      * intros (l1 & l2 & Hl & Hnot & ->). destruct l1 as [|z l1].
        -- by injection Hl as <-.
        -- injection Hl as <- _. exfalso. apply Hnot. left.
    + rewrite fmap_Some. split.
      * intros (l0 & (l1 & l2 & -> & Hnot & ->)%IH & ->).
        exists (y :: l1), l2. split; [done|]. split; [|done].
        rewrite not_elem_of_cons. split; [congruence|done].
      * intros (l1 & l2 & Hl & Hnot & ->). destruct l1 as [|z l1].
        -- injection Hl as -> _. done.
        -- injection Hl as <- ->. apply not_elem_of_cons in Hnot as [_ Hnot].
           exists (l1 ++ l2). split; [|done]. apply IH. by exists l1, l2.
Qed.

Lemma list_remove_app (x : O) (l1 l2 : list O) :
  x ∉ l1 → list_remove x (l1 ++ l2) = (l1 ++.) <$> list_remove x l2.
Proof.
  induction l1 as [|y l1 IH]; cbn [app list_remove].
  - intros _. by destruct (list_remove x l2).
  - rewrite not_elem_of_cons. intros [Hne Hnot].
    rewrite decide_False by done. rewrite IH by done.
    by destruct (list_remove x l2).
Qed.

Lemma app_singleton_cons (x : O) (l : list O) :
  l ++ [x] = x :: l ↔ l = replicate (length l) x.
Proof.
  induction l as [|y l IH]; [done|].
  cbn [app length replicate]. split.
  - intros [= -> Hl]. f_equal. by apply IH.
  - intros [= -> Hl]. f_equal. by apply IH.
Qed.

Lemma first_entry_unique (x : O) (l1 l2 k1 k2 : list O) :
  x ∉ l1 → x ∉ k1 → l1 ++ x :: l2 = k1 ++ x :: k2 → l1 = k1 ∧ l2 = k2.
Proof.
  revert k1. induction l1 as [|y l1 IH]; intros [|z k1]; cbn [app];
    rewrite ?not_elem_of_cons.
  - intros _ _ [= ->]. done.
  - intros _ [Hne _] [= Hx _]. congruence.
  - intros [Hne _] _ [= Hx _]. congruence.
  - intros [_ Hl] [_ Hk] [= -> Heq]. destruct (IH k1 Hl Hk Heq) as [-> ->]. done.
Qed.

End Detach.

(** X16.  [detach(observer)] raises [ValueError] exactly when the observer
    is not in the subject's list, and then leaves the list as it is;
    otherwise it removes the earliest entry equal to the observer and no
    other: the entries before and after it keep their order, and later
    entries of the same observer stay. *)
Theorem detach_removes_the_first_entry
    (O : Type) `{EqDecision O} (self : Subject O) (observer : O) :
  ((∃ msg, (detach self observer).1 = Raise (ValueError msg)) ↔ observer ∉ _observers self)
  ∧ (observer ∉ _observers self → (detach self observer).2 = self)
  ∧ (∀ l1 l2, _observers self = l1 ++ observer :: l2 → observer ∉ l1 →
       detach self observer = (Ret (), {| _observers := l1 ++ l2 |})).
Proof.
  unfold detach. split; [|split].
  - destruct (list_remove observer (_observers self)) as [l'|] eqn:Hremove; cbn [fst].
    + split; [by intros [msg [=]]|]. intros Hnot.
      apply list_remove_None in Hnot. congruence.
    + split; [|by eexists]. intros _. by apply list_remove_None.
  - intros Hnot. apply list_remove_None in Hnot. by rewrite Hnot.
  - intros l1 l2 Hl Hnot.
    assert (list_remove observer (_observers self) = Some (l1 ++ l2)) as ->; [|done].
    apply list_remove_Some. by exists l1, l2.
Qed.

#[export] Instance concrete_observer_eq_dec : EqDecision concrete_observer.
Proof. solve_decision. Defined.

#[export] Instance attached_eq_dec : EqDecision attached.
Proof. solve_decision. Defined.

Lemma detach_removes_the_first_entry_witness :
  detach {| _observers := [ConcreteObserverB; ConcreteObserverA; ConcreteObserverB] |}
         ConcreteObserverB
  = (Ret (), {| _observers := [ConcreteObserverA; ConcreteObserverB] |})
  ∧ (detach {| _observers := [ConcreteObserverA] |} ConcreteObserverB).2
    = {| _observers := [ConcreteObserverA] |}.
Proof.
  split.
  - apply (proj2 (proj2 (detach_removes_the_first_entry concrete_observer
             {| _observers := [ConcreteObserverB; ConcreteObserverA; ConcreteObserverB] |}
             ConcreteObserverB)) [] [ConcreteObserverA; ConcreteObserverB] eq_refl).
    apply not_elem_of_nil.
  - apply (proj1 (proj2 (detach_removes_the_first_entry concrete_observer
             {| _observers := [ConcreteObserverA] |} ConcreteObserverB))).
    apply not_elem_of_cons. split; [discriminate|apply not_elem_of_nil].
Defined.

(** X17.  Attaching an observer and detaching it again always succeeds.
    When the observer was not attached before, that gives back the subject
    as it was.  When it was, the entry removed is the earliest one, and the
    new entry stays at the end: the list holds the same observers as before,
    in an order that is the one before only when every entry from the
    earliest one of the observer on is that observer (a subject that holds
    the observer once, as its last entry, comes back as it was). *)
Theorem attach_then_detach
    (O : Type) `{EqDecision O} (self : Subject O) (observer : O) :
  (observer ∉ _observers self →
   detach (attach self observer) observer = (Ret (), self))
  ∧ (∀ l1 l2, _observers self = l1 ++ observer :: l2 → observer ∉ l1 →
       detach (attach self observer) observer
       = (Ret (), {| _observers := l1 ++ l2 ++ [observer] |}))
  ∧ (∃ self', detach (attach self observer) observer = (Ret (), self')
              ∧ _observers self' ≡ₚ _observers self)
  ∧ (detach (attach self observer) observer = (Ret (), self)
     ↔ ∃ l1 n, _observers self = l1 ++ replicate n observer ∧ observer ∉ l1).
Proof.
  assert (∀ l1 l2, _observers self = l1 ++ observer :: l2 → observer ∉ l1 →
       detach (attach self observer) observer
       = (Ret (), {| _observers := l1 ++ l2 ++ [observer] |})) as Hmoved.
  { intros l1 l2 Hl Hnot. unfold detach, attach. cbn [_observers].
    assert (list_remove observer (_observers self ++ [observer])
            = Some (l1 ++ l2 ++ [observer])) as ->; [|done].
    apply list_remove_Some. exists l1, (l2 ++ [observer]).
    rewrite Hl, <- app_assoc. done. }
  assert (observer ∉ _observers self →
          detach (attach self observer) observer = (Ret (), self)) as Hback.
  { intros Hnot. unfold detach, attach. cbn [_observers].
    assert (list_remove observer (_observers self ++ [observer])
            = Some (_observers self)) as ->; [|by destruct self].
    apply list_remove_Some. exists (_observers self), [].
    by rewrite app_nil_r. }
  split; [done|]. split; [done|].
  destruct (list_remove observer (_observers self)) as [l'|] eqn:Hremove.
  - apply list_remove_Some in Hremove as (l1 & l2 & Hl & Hnot & _). split.
    + eexists. split; [by apply Hmoved|]. cbn [_observers]. rewrite Hl.
      apply Permutation_app_head. symmetry. apply Permutation_cons_append.
    + rewrite (Hmoved l1 l2 Hl Hnot). destruct self as [observers].
      cbn [_observers] in *. subst observers. split.
      * intros [= Heq]. apply app_inv_head, app_singleton_cons in Heq.
        exists l1, (S (length l2)). cbn [replicate]. by rewrite <- Heq.
      * intros (k1 & n & Hk & Hnotk). do 3 f_equal. apply app_singleton_cons.
        destruct n as [|n]; cbn [replicate] in Hk.
        -- exfalso. apply Hnotk. rewrite app_nil_r in Hk. subst k1.
           rewrite elem_of_app. right. left.
        -- apply first_entry_unique in Hk as [_ ->]; [|done|done].
           by rewrite length_replicate.
  - apply list_remove_None in Hremove. split.
    + exists self. split; [by apply Hback|done].
    + split; [|intros _; by apply Hback]. intros _.
      exists (_observers self), 0%nat. by rewrite app_nil_r.
Qed.

Lemma attach_then_detach_witness :
  detach (attach {| _observers := [ConcreteObserverA] |} ConcreteObserverB) ConcreteObserverB
  = (Ret (), {| _observers := [ConcreteObserverA] |})
  ∧ detach (attach {| _observers := [ConcreteObserverB; ConcreteObserverA] |}
                   ConcreteObserverB) ConcreteObserverB
    = (Ret (), {| _observers := [ConcreteObserverA; ConcreteObserverB] |}).
Proof.
  split.
  - apply (proj1 (attach_then_detach concrete_observer
             {| _observers := [ConcreteObserverA] |} ConcreteObserverB)).
    apply not_elem_of_cons. split; [discriminate|apply not_elem_of_nil].
  - apply (proj1 (proj2 (attach_then_detach concrete_observer
             {| _observers := [ConcreteObserverB; ConcreteObserverA] |} ConcreteObserverB))
             [] [ConcreteObserverA] eq_refl).
    apply not_elem_of_nil.
Defined.



(** *** Notifying a list that holds an instance of the base class *)

(** X19.  On a list of concrete observers [notify] ends normally, having
    updated each of them in order.  When the list holds an instance of the
    base class [Observer], [notify] raises [NotImplementedError] at the first
    one: the observers before it have been updated, in order, and the ones
    after it are not updated at all. *)
Theorem notify_stops_at_an_abstract_observer
    (before : list concrete_observer) (after : list attached)
    (message : string) (stdout : list string) :
  notify_attached (Concrete <$> before) message stdout
  = (Notified, (notify {| _observers := before |} message stdout).2)
  ∧ notify_attached ((Concrete <$> before) ++ Abstract :: after) message stdout
    = (NotImplementedError "Subclasses must implement this method",
       (notify {| _observers := before |} message stdout).2).
Proof.
  unfold notify. cbn [snd _observers]. revert stdout.
  induction before as [|observer before IH]; intros stdout; [done|].
  cbn [fmap list_fmap app notify_attached notify_loop]. apply IH.
Qed.

(** *** The objects SingletonMeta creates *)

Lemma instantiate_all_counts (classes : list string) :
  ∀ st : interpreter,
    length (heap st) = size (dom (_instances st)) →
    dom (_instances (instantiate_all classes st))
    = dom (_instances st) ∪ list_to_set classes
    ∧ length (heap (instantiate_all classes st))
      = size (dom (_instances (instantiate_all classes st))).
Proof.
  induction classes as [|cls rest IH]; intros st Hsize.
  - cbn. split; [set_solver|done].
  - cbn [instantiate_all].
    destruct (_instances st !! cls) as [r|] eqn:Hcls.
    + rewrite (SingletonMeta__call__stored _ _ _ Hcls). cbn [snd].
      destruct (IH st Hsize) as [Hdom Hlen]. split; [|done].
      rewrite Hdom. apply elem_of_dom_2 in Hcls. set_solver.
    + rewrite (SingletonMeta__call__fresh _ _ Hcls). cbn [snd].
      apply not_elem_of_dom in Hcls.
      match goal with |- context [instantiate_all rest ?st1] =>
        destruct (IH st1) as [Hdom Hlen] end.
      { cbn [heap _instances]. rewrite length_app, dom_insert_L.
        rewrite size_union by set_solver. rewrite size_singleton. simpl. lia. }
      split; [|done]. rewrite Hdom. cbn [_instances]. rewrite dom_insert_L.
      set_solver.
Qed.

(** X20.  After any sequence of instantiations from the start, the classes
    that have an instance are exactly the classes instantiated, and exactly
    one object was created for each of them, however many times it was
    instantiated: the heap holds as many objects as there are distinct
    classes, no two of the same class. *)
Theorem one_object_per_class (classes : list string) :
  let st := instantiate_all classes initial in
  dom (_instances st) = list_to_set classes
  ∧ length (heap st) = size (list_to_set classes : gset string)
  ∧ NoDup (heap st).
Proof.
  cbn zeta.
  destruct (instantiate_all_counts classes initial) as [Hdom Hlen]; [done|].
  cbn [initial _instances] in Hdom. rewrite dom_empty_L, union_empty_l_L in Hdom.
  split; [done|]. split; [by rewrite Hlen, Hdom|].
  pose proof (instantiate_all_inv classes initial singleton_inv_initial) as [_ Hobjects].
  apply NoDup_alt. intros i j c Hi Hj.
  apply Hobjects in Hi, Hj. congruence.
Qed.

End Patterns.

(** * Async_Programming_Tutorial.ipynb *)
Module Async.
Local Open Scope Z_scope.

(** ** Coroutines

    The body of an [async def] of the notebook, as the statements it runs:
    it prints, awaits [asyncio.sleep], awaits [asyncio.gather] of other
    coroutines, and returns. *)
#[warnings="-register-all"]
Inductive coroutine :=
| Return
| Print (line : string) (k : coroutine)
| Sleep (delay : Z) (k : coroutine)
| Gather (children : list coroutine) (k : coroutine).

Definition task1 : coroutine :=
  Print "Task 1 started.." (Sleep 2 (Print "Task 1 Ended" Return)).

Definition task2 : coroutine :=
  Print "Task 2 started.." (Sleep 3 (Print "Task 2 Ended" Return)).

Definition task3 : coroutine :=
  Print "Task 3 started.." (Sleep 1 (Print "Task 3 Ended" Return)).

Definition run_tasks : coroutine :=
  Gather [task1; task2; task3] (Print "All tasks completed." Return).

(** The same demo with the three delays as parameters. *)
Definition run_tasks_with (d1 d2 d3 : Z) : coroutine :=
  Gather [Print "Task 1 started.." (Sleep d1 (Print "Task 1 Ended" Return));
          Print "Task 2 started.." (Sleep d2 (Print "Task 2 Ended" Return));
          Print "Task 3 started.." (Sleep d3 (Print "Task 3 Ended" Return))]
         (Print "All tasks completed." Return).

(** The lines the notebook records for the demo. *)
Definition demo_output : list string :=
  ["Task 1 started.."; "Task 2 started.."; "Task 3 started..";
   "Task 3 Ended"; "Task 1 Ended"; "Task 2 Ended";
   "All tasks completed."].

(** ** The event loop

    One thread runs the tasks in turn.  A task runs until it awaits; the
    loop's clock is virtual: running a task takes no time, and when no task is
    ready the clock jumps to the earliest timer.  [ready] is the queue of
    tasks to resume, [timers] the sleeping tasks with their wake-up times,
    [gathers] the tasks awaiting a [gather] with the children still running.
    Task 0 is the main coroutine given to [asyncio.run]. *)
Record loop := Loop {
  clock : Z;
  ready : list (nat * coroutine);
  timers : list (Z * (nat * coroutine));
  gathers : list (nat * (list nat * coroutine));
  next_task : nat;
  main_done : bool;
  stdout : list string
}.

Definition set_ready (r : list (nat * coroutine)) (st : loop) : loop :=
  Loop (clock st) r (timers st) (gathers st) (next_task st) (main_done st) (stdout st).

Definition add_ready (r : list (nat * coroutine)) (st : loop) : loop :=
  set_ready (ready st ++ r) st.

Definition add_timer (t : Z * (nat * coroutine)) (st : loop) : loop :=
  Loop (clock st) (ready st) (timers st ++ [t]) (gathers st) (next_task st)
       (main_done st) (stdout st).

Definition write (line : string) (st : loop) : loop :=
  Loop (clock st) (ready st) (timers st) (gathers st) (next_task st)
       (main_done st) (stdout st ++ [line]).

(** Task [id] has returned: the gathers waiting for it lose a child, and a
    gather with no child left resumes its task. *)
Definition finish (id : nat) (st : loop) : loop :=
  let gs := (λ g : nat * (list nat * coroutine),
               (g.1, (List.filter (λ c, negb (c =? id)%nat) g.2.1, g.2.2)))
            <$> gathers st in
  let complete := List.filter (λ g : nat * (list nat * coroutine),
                                 bool_decide (g.2.1 = [])) gs in
  let pending := List.filter (λ g : nat * (list nat * coroutine),
                                negb (bool_decide (g.2.1 = []))) gs in
  Loop (clock st)
       (ready st ++ ((λ g : nat * (list nat * coroutine), (g.1, g.2.2)) <$> complete))
       (timers st) pending (next_task st)
       (main_done st || (id =? 0)%nat) (stdout st).

(** [gather] wraps each child in a task, scheduled in argument order. *)
Definition spawn (id : nat) (children : list coroutine) (k : coroutine) (st : loop) : loop :=
  let ids := seq (next_task st) (length children) in
  Loop (clock st) (ready st ++ zip ids children) (timers st)
       (gathers st ++ [(id, (ids, k))])
       (next_task st + length children)%nat (main_done st) (stdout st).

(** Run task [id] from [code] until it awaits or returns. *)
Fixpoint resume (id : nat) (code : coroutine) (st : loop) : loop :=
  match code with
  | Return => finish id st
  | Print line k => resume id k (write line st)
  | Sleep delay k =>
      if delay <=? 0 then add_ready [(id, k)] st
      else add_timer (clock st + delay, (id, k)) st
  | Gather [] k => resume id k st
  | Gather children k => spawn id children k st
  end.

Definition earliest (t : Z * (nat * coroutine)) (ts : list (Z * (nat * coroutine))) : Z :=
  foldr (λ t' m, Z.min t'.1 m) t.1 ts.

(** One iteration of the loop; [None] when the main task is done or nothing
    is left to run.  Timers due at the same instant are woken in the order
    of insertion; [run_once_ties] further down leaves that order open. *)
Definition run_once (st : loop) : option loop :=
  if main_done st then None
  else
    match ready st with
    | (id, code) :: rest => Some (resume id code (set_ready rest st))
    | [] =>
        match timers st with
        | [] => None
        | t :: ts =>
            let now := earliest t ts in
            let due := List.filter (λ t' : Z * (nat * coroutine), t'.1 <=? now) (timers st) in
            let later := List.filter (λ t' : Z * (nat * coroutine), now <? t'.1) (timers st) in
            Some (Loop now (snd <$> due) later (gathers st) (next_task st)
                       (main_done st) (stdout st))
        end
    end.

Fixpoint run_until_complete (fuel : nat) (st : loop) : option loop :=
  match fuel with
  | O => None
  | S fuel' =>
      match run_once st with
      | None => Some st
      | Some st' => run_until_complete fuel' st'
      end
  end.

(** [asyncio.run(main)] *)
Definition asyncio_run (fuel : nat) (main : coroutine) : option loop :=
  run_until_complete fuel (Loop 0 [(O, main)] [] [] 1 false []).

(** ** The demo *)

Ltac decide_comparisons :=
  repeat match goal with
    | |- context [?a <=? ?b] =>
        first [ rewrite (proj2 (Z.leb_le a b)) by lia
              | rewrite (proj2 (Z.leb_gt a b)) by lia ]
    | |- context [?a <? ?b] =>
        first [ rewrite (proj2 (Z.ltb_lt a b)) by lia
              | rewrite (proj2 (Z.ltb_ge a b)) by lia ]
    | |- context [Z.min ?a ?b] =>
        first [ rewrite (Z.min_l a b) by lia
              | rewrite (Z.min_r a b) by lia ]
    end.

Lemma run_until_complete_step (fuel : nat) (st st' : loop) :
  run_once st = Some st' →
  run_until_complete (S fuel) st = run_until_complete fuel st'.
Proof. intros Hstep. cbn [run_until_complete]. by rewrite Hstep. Qed.

Lemma run_until_complete_done (fuel : nat) (st : loop) :
  run_once st = None → run_until_complete (S fuel) st = Some st.
Proof. intros Hstep. cbn [run_until_complete]. by rewrite Hstep. Qed.

(** One iteration of the loop on a state whose shape is known, the delays
    being symbolic. *)
Ltac loop_state :=
  unfold run_once, earliest; cbn -[Z.leb Z.ltb Z.min Z.add];
  unfold finish, add_ready, add_timer, write, set_ready, spawn;
  cbn -[Z.leb Z.ltb Z.min Z.add]; rewrite ?Z.add_0_l; decide_comparisons;
  cbn -[Z.leb Z.ltb Z.min Z.add].

Ltac loop_step :=
  erewrite run_until_complete_step; [|loop_state; reflexivity].

(** More fuel does not change the result of a run. *)
Lemma run_until_complete_more_fuel (fuel : nat) :
  ∀ (fuel' : nat) (st st' : loop),
    (fuel ≤ fuel')%nat →
    run_until_complete fuel st = Some st' →
    run_until_complete fuel' st = Some st'.
Proof.
  induction fuel as [|fuel IH]; intros fuel' st st' Hle Hrun; [done|].
  destruct fuel' as [|fuel']; [lia|].
  cbn [run_until_complete] in *.
  destruct (run_once st) as [st1|]; [|done].
  apply (IH fuel'); [lia|done].
Qed.

Lemma run_tasks_with_12 (d1 d2 d3 : Z) :
  0 < d3 → d3 < d1 → d1 < d2 →
  asyncio_run 12 (run_tasks_with d1 d2 d3)
  = Some (Loop d2 [] [] [] 4 true demo_output).
Proof.
  intros H3 H31 H12. unfold asyncio_run, run_tasks_with.
  do 11 loop_step. by apply run_until_complete_done.
Qed.

(** C3.  On the event loop with its virtual clock, [asyncio.run(run_tasks())]
    completes (12 iterations or more) at time 3 having printed the three
    start lines, then [Task 3 Ended], [Task 1 Ended], [Task 2 Ended], and
    last [All tasks completed.]; and the same order results for any delays
    with [0 < d3 < d1 < d2]: the shorter delay finishes first, and the
    gather line comes after the three tasks have ended. *)
Theorem run_tasks_finish_in_delay_order :
  (∀ fuel : nat, (12 ≤ fuel)%nat →
     asyncio_run fuel run_tasks = Some (Loop 3 [] [] [] 4 true demo_output))
  ∧ (∀ (d1 d2 d3 : Z) (fuel : nat),
       0 < d3 → d3 < d1 → d1 < d2 → (12 ≤ fuel)%nat →
       asyncio_run fuel (run_tasks_with d1 d2 d3)
       = Some (Loop d2 [] [] [] 4 true demo_output)).
Proof.
  assert (∀ (d1 d2 d3 : Z) (fuel : nat),
       0 < d3 → d3 < d1 → d1 < d2 → (12 ≤ fuel)%nat →
       asyncio_run fuel (run_tasks_with d1 d2 d3)
       = Some (Loop d2 [] [] [] 4 true demo_output)) as Hwith.
  { intros d1 d2 d3 fuel H3 H31 H12 Hfuel.
    apply (run_until_complete_more_fuel 12); [done|].
    by apply run_tasks_with_12. }
  split; [|exact Hwith].
  intros fuel Hfuel.
  change run_tasks with (run_tasks_with 2 3 1). apply Hwith; lia.
Qed.

Lemma run_tasks_finish_in_delay_order_witness :
  asyncio_run 12 run_tasks = Some (Loop 3 [] [] [] 4 true demo_output)
  ∧ asyncio_run 20 (run_tasks_with 20 30 10)
    = Some (Loop 30 [] [] [] 4 true demo_output).
Proof.
  destruct run_tasks_finish_in_delay_order as [Hdemo Hwith].
  split.
  - exact (Hdemo 12%nat ltac:(lia)).
  - exact (Hwith 20 30 10 20%nat ltac:(lia) ltac:(lia) ltac:(lia) ltac:(lia)).
Defined.

(** ** More of the notebook's coroutines *)

(** *** A coroutine run alone *)

Definition hello_async : coroutine :=
  Sleep 1 (Print "Hello, Async World!" Return).

Definition basic_async_example : coroutine :=
  Print "Start of basic example" (Sleep 1 (Print "End of basic example" Return)).

(** A coroutine that only prints and sleeps. *)
Fixpoint straight (code : coroutine) : bool :=
  match code with
  | Return => true
  | Print _ k => straight k
  | Sleep _ k => straight k
  | Gather _ _ => false
  end.

(** The lines it prints, in program order. *)
Fixpoint lines (code : coroutine) : list string :=
  match code with
  | Return => []
  | Print line k => line :: lines k
  | Sleep _ k => lines k
  | Gather _ k => lines k
  end.

(** The time it sleeps: a delay that is not positive only yields to the
    loop. *)
Fixpoint sleeping_time (code : coroutine) : Z :=
  match code with
  | Return => 0
  | Print _ k => sleeping_time k
  | Sleep delay k => Z.max delay 0 + sleeping_time k
  | Gather _ k => sleeping_time k
  end.

Fixpoint sleeps (code : coroutine) : nat :=
  match code with
  | Return => 0
  | Print _ k => sleeps k
  | Sleep _ k => S (sleeps k)
  | Gather _ k => sleeps k
  end.

Lemma run_straight (code : coroutine) :
  straight code = true →
  ∀ (fuel : nat) (t : Z) (out : list string),
    (2 * sleeps code < fuel)%nat →
    run_until_complete fuel (resume 0 code (Loop t [] [] [] 1 false out))
    = Some (Loop (t + sleeping_time code) [] [] [] 1 true (out ++ lines code)).
Proof.
  induction code as [|line k IH|delay k IH|children k IH]; intros Hstraight fuel t out Hfuel;
    cbn [straight sleeps lines sleeping_time] in *; [| | |done].
  - destruct fuel as [|fuel]; [lia|]. cbn. by rewrite Z.add_0_r, app_nil_r.
  - cbn [resume]. unfold write. cbn [clock ready timers gathers next_task main_done stdout].
    rewrite (IH Hstraight fuel t (out ++ [line]) Hfuel). by rewrite <- app_assoc.
  - cbn [resume]. destruct (Z.leb_spec delay 0) as [Hle|Hgt].
    + destruct fuel as [|fuel]; [lia|]. cbn [run_until_complete].
      unfold run_once, add_ready, set_ready.
      cbn [clock ready timers gathers next_task main_done stdout app].
      rewrite (IH Hstraight fuel t out) by lia. do 2 f_equal. lia.
    + destruct fuel as [|[|fuel]]; try lia. cbn [run_until_complete].
      unfold add_timer, run_once at 1.
      cbn [clock ready timers gathers next_task main_done stdout app earliest foldr fst snd
           List.filter fmap list_fmap].
      rewrite Z.leb_refl, Z.ltb_irrefl.
      unfold run_once at 1, set_ready.
      cbn [clock ready timers gathers next_task main_done stdout fmap list_fmap snd].
      rewrite (IH Hstraight fuel (t + delay) out) by lia. do 2 f_equal. lia.
Qed.

(** X21.  Run alone by [asyncio.run], a coroutine that only prints and
    sleeps prints its lines in program order and completes when the clock
    shows the sum of its delays: nothing else runs in between, and each sleep
    is waited for in full before the next statement. *)
Theorem asyncio_run_straight (code : coroutine) (fuel : nat) :
  straight code = true →
  (2 * sleeps code + 1 < fuel)%nat →
  asyncio_run fuel code
  = Some (Loop (sleeping_time code) [] [] [] 1 true (lines code)).
Proof.
  intros Hstraight Hfuel. unfold asyncio_run.
  destruct fuel as [|fuel]; [lia|]. cbn [run_until_complete].
  unfold run_once, set_ready.
  cbn [clock ready timers gathers next_task main_done stdout].
  by rewrite (run_straight code Hstraight fuel 0 []) by lia.
Qed.

Lemma asyncio_run_straight_witness :
  asyncio_run 4 basic_async_example
  = Some (Loop 1 [] [] [] 1 true ["Start of basic example"; "End of basic example"])
  ∧ asyncio_run 4 hello_async
    = Some (Loop 1 [] [] [] 1 true ["Hello, Async World!"]).
Proof.
  split.
  - exact (asyncio_run_straight basic_async_example 4 eq_refl ltac:(simpl; lia)).
  - exact (asyncio_run_straight hello_async 4 eq_refl ltac:(simpl; lia)).
Defined.

(** *** fetch_data and the main that gathers one task for each url *)

Definition fetch_data (url : string) : coroutine :=
  Print ("Starting to fetch data from " +:+ url)
    (Sleep 1 (Print ("Data fetched from " +:+ url) Return)).

(** [tasks = [asyncio.create_task(fetch_data(url)) for url in urls]] and then
    [await asyncio.gather( *tasks )]: the tasks are scheduled in the order of
    [urls] and nothing is awaited before the [gather]. *)
Definition main (urls : list string) : coroutine :=
  Gather (fetch_data <$> urls) Return.

(** **** Timers due at the same instant

    The tasks of [main] all sleep one second from the same instant of the
    clock, so that their timers are due together.  The loop takes the due
    timers from a heap ordered by deadline, which fixes no order among the
    timers of one deadline: [order] is the order in which the loop wakes
    them, any rearrangement of the due timers.  [run_once] is the loop that
    wakes them in the order of insertion. *)
Section Ties.
Variable order : list (Z * (nat * coroutine)) → list (Z * (nat * coroutine)).

Definition run_once_ties (st : loop) : option loop :=
  if main_done st then None
  else
    match ready st with
    | (id, code) :: rest => Some (resume id code (set_ready rest st))
    | [] =>
        match timers st with
        | [] => None
        | t :: ts =>
            let now := earliest t ts in
            let due := List.filter (λ t' : Z * (nat * coroutine), t'.1 <=? now) (timers st) in
            let later := List.filter (λ t' : Z * (nat * coroutine), now <? t'.1) (timers st) in
            Some (Loop now (snd <$> order due) later (gathers st) (next_task st)
                       (main_done st) (stdout st))
        end
    end.

Fixpoint run_until_complete_ties (fuel : nat) (st : loop) : option loop :=
  match fuel with
  | O => None
  | S fuel' =>
      match run_once_ties st with
      | None => Some st
      | Some st' => run_until_complete_ties fuel' st'
      end
  end.

Definition asyncio_run_ties (fuel : nat) (main : coroutine) : option loop :=
  run_until_complete_ties fuel (Loop 0 [(O, main)] [] [] 1 false []).

End Ties.

Lemma run_until_complete_ties_insertion (fuel : nat) :
  ∀ st : loop, run_until_complete_ties id fuel st = run_until_complete fuel st.
Proof.
  induction fuel as [|fuel IH]; intros st; [done|].
  cbn [run_until_complete_ties run_until_complete].
  change (run_once_ties id st) with (run_once st).
  destruct (run_once st); [apply IH|done].
Qed.

(** A task of [main] after its sleep. *)
Definition fetched (url : string) : coroutine :=
  Print ("Data fetched from " +:+ url) Return.

Definition starting_task (p : nat * string) : nat * coroutine := (p.1, fetch_data p.2).
Definition sleeping_task (p : nat * string) : Z * (nat * coroutine) := (1, (p.1, fetched p.2)).
Definition woken_task (p : nat * string) : nat * coroutine := (p.1, fetched p.2).
Definition starting_line (url : string) : string := "Starting to fetch data from " +:+ url.
Definition fetched_line (url : string) : string := "Data fetched from " +:+ url.

Section TiesFacts.
Variable order : list (Z * (nat * coroutine)) → list (Z * (nat * coroutine)).

Lemma run_until_complete_ties_more_fuel (fuel : nat) :
  ∀ (fuel' : nat) (st st' : loop),
    (fuel ≤ fuel')%nat →
    run_until_complete_ties order fuel st = Some st' →
    run_until_complete_ties order fuel' st = Some st'.
Proof.
  induction fuel as [|fuel IH]; intros fuel' st st' Hle Hrun; [done|].
  destruct fuel' as [|fuel']; [lia|].
  cbn [run_until_complete_ties] in *.
  destruct (run_once_ties order st) as [st1|]; [|done].
  apply (IH fuel'); [lia|done].
Qed.

Lemma run_starting_tasks (tasks : list (nat * string)) :
  ∀ (T : list (Z * (nat * coroutine))) G nt out fuel,
    run_until_complete_ties order (length tasks + fuel)
      (Loop 0 (starting_task <$> tasks) T G nt false out)
    = run_until_complete_ties order fuel
        (Loop 0 [] (T ++ (sleeping_task <$> tasks)) G nt false
              (out ++ (starting_line <$> tasks.*2))).
Proof.
  induction tasks as [|[i url] tasks IH]; intros T G nt out fuel.
  - cbn. by rewrite !app_nil_r.
  - cbn [length Nat.add run_until_complete_ties fmap list_fmap].
    unfold run_once_ties at 1. cbn [main_done ready starting_task fst snd].
    unfold set_ready. cbn [clock ready timers gathers next_task main_done stdout].
    unfold fetch_data at 1. cbn [resume]. unfold write, add_timer.
    cbn [clock ready timers gathers next_task main_done stdout Z.leb Z.compare Z.add].
    rewrite IH. rewrite <- !app_assoc. reflexivity.
Qed.

Lemma earliest_sleeping (p : nat * string) (tasks : list (nat * string)) :
  earliest (sleeping_task p) (sleeping_task <$> tasks) = 1.
Proof.
  unfold earliest. induction tasks as [|q tasks IH]; [done|].
  cbn [fmap list_fmap foldr]. by rewrite IH.
Qed.

Lemma wake_sleeping_tasks (tasks : list (nat * string)) G nt out :
  tasks ≠ [] →
  run_once_ties order (Loop 0 [] (sleeping_task <$> tasks) G nt false out)
  = Some (Loop 1 (snd <$> order (sleeping_task <$> tasks)) [] G nt false out).
Proof.
  intros Hne. destruct tasks as [|p tasks]; [done|].
  unfold run_once_ties. cbn [main_done ready timers fmap list_fmap].
  rewrite earliest_sleeping.
  cbn [clock ready timers gathers next_task main_done stdout].
  assert (∀ l : list (nat * string),
            List.filter (λ t' : Z * (nat * coroutine), t'.1 <=? 1) (sleeping_task <$> l)
            = sleeping_task <$> l) as Hdue.
  { induction l as [|q l IHl]; [done|]. cbn. by rewrite IHl. }
  assert (∀ l : list (nat * string),
            List.filter (λ t' : Z * (nat * coroutine), 1 <? t'.1) (sleeping_task <$> l) = [])
    as Hlater.
  { induction l as [|q l IHl]; [done|]. cbn. by rewrite IHl. }
  change (sleeping_task p :: (sleeping_task <$> tasks))
    with (sleeping_task <$> p :: tasks).
  by rewrite (Hdue (p :: tasks)), (Hlater (p :: tasks)).
Qed.

Lemma filter_finished_task (i : nat) (ids rest : list nat) :
  NoDup (i :: rest) → ids ≡ₚ i :: rest →
  List.filter (λ c, negb (c =? i)%nat) ids ≡ₚ rest.
Proof.
  intros [Hi Hrest]%NoDup_cons Hperm. apply NoDup_Permutation.
  - apply NoDup_ListNoDup, List.NoDup_filter, NoDup_ListNoDup.
    rewrite Hperm. by apply NoDup_cons.
  - done.
  - intros x. rewrite list_elem_of_In, List.filter_In, <- list_elem_of_In.
    rewrite Hperm, elem_of_cons. destruct (Nat.eqb_spec x i) as [->|Hne]; cbn [negb].
    + split; [by intros [_ ?]|done].
    + split; [by intros [[?|?] _]|by auto].
Qed.

Lemma run_woken_tasks (tasks : list (nat * string)) :
  ∀ ids c nt out fuel,
    tasks ≠ [] → NoDup tasks.*1 → ids ≡ₚ tasks.*1 → 0%nat ∉ tasks.*1 →
    run_until_complete_ties order (length tasks + fuel)
      (Loop c (woken_task <$> tasks) [] [(0%nat, (ids, Return))] nt false out)
    = run_until_complete_ties order fuel
        (Loop c [(0%nat, Return)] [] [] nt false (out ++ (fetched_line <$> tasks.*2))).
Proof.
  induction tasks as [|[i url] tasks IH]; intros ids c nt out fuel Hne Hdup Hperm Hzero;
    [done|].
  cbn [fmap list_fmap fst snd] in Hdup, Hperm, Hzero.
  pose proof (filter_finished_task i ids _ Hdup Hperm) as Hleft.
  apply NoDup_cons in Hdup as [Hi Hdup]. apply not_elem_of_cons in Hzero as [Hi0 Hzero].
  cbn [length Nat.add run_until_complete_ties fmap list_fmap].
  unfold run_once_ties at 1. cbn [main_done ready woken_task fst snd].
  unfold set_ready. cbn [clock ready timers gathers next_task main_done stdout].
  unfold fetched at 1. cbn [resume]. unfold write, finish.
  cbn [clock ready timers gathers next_task main_done stdout fmap list_fmap fst snd
       List.filter].
  destruct (Nat.eqb_spec i 0) as [->|_]; [done|]. cbn [orb].
  destruct tasks as [|q tasks].
  - apply Permutation_nil_r in Hleft. rewrite Hleft.
    rewrite bool_decide_eq_true_2 by done. reflexivity.
  - rewrite bool_decide_eq_false_2.
    2:{ intros Hnil. rewrite Hnil in Hleft. by apply Permutation_nil_cons in Hleft. }
    cbn [negb List.filter fmap list_fmap]. rewrite app_nil_r.
    etransitivity;
      [exact (IH _ c nt (out ++ [fetched_line url]) fuel ltac:(done) Hdup Hleft Hzero)|].
    by rewrite <- app_assoc.
Qed.

Lemma finish_main (c : Z) (nt : nat) (out : list string) (fuel : nat) :
  run_until_complete_ties order (2 + fuel) (Loop c [(0%nat, Return)] [] [] nt false out)
  = Some (Loop c [] [] [] nt true out).
Proof. reflexivity. Qed.

Lemma zip_starting_tasks (ids : list nat) (urls : list string) :
  zip ids (fetch_data <$> urls) = starting_task <$> zip ids urls.
Proof.
  revert ids. induction urls as [|url urls IH]; intros [|i ids]; try done.
  cbn. by rewrite IH.
Qed.

(** The run of [main], the loop waking the tasks as [woken]. *)
Lemma run_main (url : string) (urls : list string) (woken : list (nat * string)) :
  order (sleeping_task <$> zip (seq 1 (length (url :: urls))) (url :: urls))
  = sleeping_task <$> woken →
  woken ≡ₚ zip (seq 1 (length (url :: urls))) (url :: urls) →
  asyncio_run_ties order (2 * length (url :: urls) + 4) (main (url :: urls))
  = Some (Loop 1 [] [] [] (1 + length (url :: urls)) true
               ((starting_line <$> url :: urls) ++ (fetched_line <$> woken.*2))).
Proof.
  set (all := url :: urls). set (tasks := zip (seq 1 (length all)) all).
  intros Horder Hwoken.
  assert (tasks.*1 = seq 1 (length all)) as Hids.
  { apply fst_zip. by rewrite length_seq. }
  assert (tasks.*2 = all) as Hurls.
  { apply snd_zip. by rewrite length_seq. }
  assert (length tasks = length all) as Hlen.
  { by rewrite <- Hurls, length_fmap. }
  assert (length woken = length all) as Hlen'.
  { by rewrite Hwoken. }
  assert (tasks ≠ []) as Hne by (by intros Hnil; rewrite Hnil in Hlen).
  assert (woken ≠ []) as Hne' by (by intros Hnil; rewrite Hnil in Hlen').
  replace (2 * length all + 4)%nat
    with (S (length tasks + S (length woken + (2 + 0))))%nat by lia.
  unfold asyncio_run_ties. cbn [run_until_complete_ties]. unfold run_once_ties at 1.
  cbn [main_done ready]. unfold set_ready.
  cbn [clock ready timers gathers next_task main_done stdout].
  assert (resume 0 (main all) (Loop 0 [] [] [] 1 false [])
          = Loop 0 (starting_task <$> tasks) [] [(0%nat, (tasks.*1, Return))]
                 (1 + length all) false []) as ->.
  { rewrite Hids. unfold tasks. rewrite <- zip_starting_tasks.
    unfold main, all. cbn [fmap list_fmap resume]. unfold spawn.
    cbn [clock ready timers gathers next_task main_done stdout app length].
    by rewrite length_fmap. }
  rewrite run_starting_tasks. cbn [app run_until_complete_ties].
  rewrite (wake_sleeping_tasks tasks _ _ _ Hne), Horder.
  rewrite <- list_fmap_compose.
  change (snd ∘ sleeping_task) with woken_task.
  rewrite run_woken_tasks; [|done| | |].
  - rewrite finish_main, Hurls. reflexivity.
  - rewrite Hwoken, Hids. apply NoDup_seq.
  - by rewrite Hwoken.
  - rewrite Hwoken, Hids, elem_of_seq. lia.
Qed.

End TiesFacts.

(** X22.  For any list of urls, and whatever the order in which the loop
    wakes timers that are due at the same instant, [asyncio.run(main())]
    completes and prints the line [Starting to fetch data from ...] of every
    url, in the order of the list, and only then the lines [Data fetched
    from ...], one for every url, in the order the loop wakes the tasks:
    every task starts before any task resumes, and all the tasks sleep the
    same second, so the run ends at time 1 (at time 0 when there is no url).
    When the loop wakes the due timers in the order of insertion, the lines
    [Data fetched from ...] come in the order of the list as well. *)
Theorem main_starts_all_then_fetches_all
    (order : list (Z * (nat * coroutine)) → list (Z * (nat * coroutine)))
    (urls : list string) (fuel : nat) :
  (∀ due, order due ≡ₚ due) →
  (2 * length urls + 4 ≤ fuel)%nat →
  (∃ woken : list string,
     woken ≡ₚ urls
     ∧ asyncio_run_ties order fuel (main urls)
       = Some (Loop (if decide (urls = []) then 0 else 1) [] [] []
                    (1 + length urls) true
                    ((starting_line <$> urls) ++ (fetched_line <$> woken))))
  ∧ ((∀ due, order due = due) →
     asyncio_run_ties order fuel (main urls)
     = Some (Loop (if decide (urls = []) then 0 else 1) [] [] []
                  (1 + length urls) true
                  ((starting_line <$> urls) ++ (fetched_line <$> urls)))).
Proof.
  intros Horder Hfuel.
  destruct urls as [|url urls].
  { split; [exists []; split; [done|]|intros _];
      by apply (run_until_complete_ties_more_fuel order 4). }
  rewrite decide_False by done.
  set (tasks := zip (seq 1 (length (url :: urls))) (url :: urls)).
  assert (tasks.*2 = url :: urls) as Hurls.
  { apply snd_zip. by rewrite length_seq. }
  split.
  - destruct (Permutation_map_inv sleeping_task tasks (Horder (sleeping_task <$> tasks)))
      as (woken & Hwoken & Hperm).
    exists woken.*2. split; [by rewrite <- Hperm, Hurls|].
    apply (run_until_complete_ties_more_fuel order (2 * length (url :: urls) + 4));
      [done|].
    by apply run_main.
  - intros Hsame.
    apply (run_until_complete_ties_more_fuel order (2 * length (url :: urls) + 4));
      [done|].
    pose proof (run_main order url urls tasks (Hsame _) ltac:(done)) as Hrun.
    rewrite Hurls in Hrun. exact Hrun.
Qed.

(** The notebook's two urls, on a loop that wakes the timers due together
    in the reverse of the order of insertion. *)
Lemma main_starts_all_then_fetches_all_witness :
  (∃ woken : list string,
     woken ≡ₚ ["http://example.com/api/data1"; "http://example.com/api/data2"]
     ∧ asyncio_run_ties reverse 8
         (main ["http://example.com/api/data1"; "http://example.com/api/data2"])
       = Some (Loop 1 [] [] [] 3 true
                 (["Starting to fetch data from http://example.com/api/data1";
                   "Starting to fetch data from http://example.com/api/data2"]
                    ++ (fetched_line <$> woken))))
  ∧ asyncio_run_ties reverse 8
      (main ["http://example.com/api/data1"; "http://example.com/api/data2"])
    = Some (Loop 1 [] [] [] 3 true
              ["Starting to fetch data from http://example.com/api/data1";
               "Starting to fetch data from http://example.com/api/data2";
               "Data fetched from http://example.com/api/data2";
               "Data fetched from http://example.com/api/data1"]).
Proof.
  split; [|reflexivity].
  exact (proj1 (main_starts_all_then_fetches_all reverse
                  ["http://example.com/api/data1"; "http://example.com/api/data2"] 8
                  (λ due, reverse_Permutation due) ltac:(simpl; lia))).
Defined.

End Async.
